(** * Chess-AI: game trees for Minichess and the players that walk them

    A shallow embedding of [game_tree.py] (the [GameTree] class), of
    [generate_complete_game_tree] and of the three tree players
    ([RandomTreePlayer], [GreedyTreePlayer], [ExploringPlayer]).

    Conventions of the embedding.
    - A [GameTree] object is a value; a method that mutates [self] returns
      the new value of [self].  A child that is mutated through the parent
      (the [move_tree] of [rec_helper]) is written back at its position in
      the parent's list of subtrees.
    - A Python float is the rational number it denotes ([Q]); [0.0] is
      [0] and [1.0] is [1].  Comparisons are exact.  The additions and the
      division of [_update_white_win_probability] round their result to
      the nearest binary64 number, ties to even, with gradual underflow
      ([fl]).  Infinities and NaN, which the representation invariant
      [0 <= white_win_probability <= 1] excludes, have no counterpart,
      and no sum in the unit interval can overflow.
    - The module [random] is a tape of draws with a cursor; every call of
      [random.choice] on a non-empty sequence and every call of
      [random.uniform] consumes one draw.
    - [minichess.MinichessGame] is not part of the sources; it is a type
      class with the four methods the code calls. *)

From Stdlib Require Import String List Bool Arith ZArith NArith QArith.
From Stdlib Require Import Qround Qpower Lia Lqa Floats.
From Equations Require Import Equations.
Import ListNotations.

Set Implicit Arguments.
Set Warnings "-register-all".
Local Close Scope Q_scope.
Local Open Scope list_scope.

(** ** Python helpers *)

(** [x < y] on floats, as a boolean. *)
Definition Qlt_bool (x y : Q) : bool :=
  (Qnum x * QDen y <? Qnum y * QDen x)%Z.

(** *** Binary64 arithmetic

    [floor_log2 x] is the binade of a positive [x]: the [e] with
    [2^e <= x < 2^(e+1)]. *)
Definition floor_log2 (x : Q) : Z :=
  let e := (Z.log2 (Qnum x) - Z.log2 (Zpos (Qden x)))%Z in
  if Qle_bool (2 ^ e)%Q x then e else (e - 1)%Z.

(** The integer nearest to [x], the even one of the two when [x] is half
    way. *)
Definition round_half_even (x : Q) : Z :=
  let f := Qfloor x in
  match Qcompare (x - inject_Z f)%Q (1 # 2)%Q with
  | Lt => f
  | Gt => (f + 1)%Z
  | Eq => if Z.even f then f else (f + 1)%Z
  end.

(** The exponent of the last of the 53 bits of a positive [x]; it does
    not go below that of the subnormal numbers. *)
Definition ulp_exponent (x : Q) : Z := Z.max (floor_log2 x - 52) (-1074).

Definition fl_pos (x : Q) : Q :=
  let e := ulp_exponent x in
  (inject_Z (round_half_even (x / 2 ^ e)) * 2 ^ e)%Q.

(** [fl x]: the binary64 number nearest to [x], what a float operation
    stores when its exact result is [x]. *)
Definition fl (x : Q) : Q :=
  match Qnum x with
  | Z0 => 0%Q
  | Zpos _ => fl_pos x
  | Zneg _ => (- fl_pos (- x))%Q
  end.

(** [x] is a binary64 number: a value that a Python float can have. *)
Definition is_double (x : Q) : Prop := (fl x == x)%Q.

(** The rational that a (finite) primitive float of Rocq denotes. *)
Definition Q_of_float (f : float) : Q :=
  match Prim2SF f with
  | S754_finite s m e =>
      ((if s then - (1) else 1) * inject_Z (Zpos m) * 2 ^ e)%Q
  | _ => 0%Q
  end.

(** [l[-1]]: the last element, [None] when [l] is empty. *)
Fixpoint py_last {A : Type} (l : list A) : option A :=
  match l with
  | [] => None
  | [x] => Some x
  | _ :: r => py_last r
  end.

(** The idiom that keeps the equation of a scrutinee in scope. *)
Definition inspect {A : Type} (a : A) : {b : A | a = b} :=
  exist _ a eq_refl.

(** ** game_tree.py *)

Definition GAME_START_MOVE : string := "*"%string.

Unset Elimination Schemes.
Inductive GameTree : Type := mkGameTree {
  move : string;
  is_white_move : bool;
  white_win_probability : Q;
  _subtrees : list GameTree
}.
Set Elimination Schemes.

(** [GameTree.__init__]: a node without subtrees. *)
Definition GameTree_init (mv : string) (white : bool) (p : Q) : GameTree :=
  mkGameTree mv white p [].

(** [GameTree()] with every argument defaulted. *)
Definition GameTree_default : GameTree :=
  GameTree_init GAME_START_MOVE true 0%Q.

Definition get_subtrees (self : GameTree) : list GameTree :=
  _subtrees self.

(** Assignments to one attribute of [self]. *)
Definition set_subtrees (self : GameTree) (subs : list GameTree) : GameTree :=
  mkGameTree (move self) (is_white_move self) (white_win_probability self) subs.

Definition set_white_win_probability (self : GameTree) (p : Q) : GameTree :=
  mkGameTree (move self) (is_white_move self) p (_subtrees self).

(** [find_subtree_by_move]: the first subtree whose move is [mv]. *)
Definition find_subtree_by_move (self : GameTree) (mv : string)
  : option GameTree :=
  find (fun subtree => String.eqb (move subtree) mv) (_subtrees self).

(** Python's [max] over a non-empty iterable whose first item is [cur]:
    a later item replaces the running maximum only when strictly greater. *)
Fixpoint py_max_from (cur : Q) (items : list Q) : Q :=
  match items with
  | [] => cur
  | x :: r => py_max_from (if Qlt_bool cur x then x else cur) r
  end.

(** The loop of the Black branch: [sum_probs] and [count] after the scan.
    [sum_probs] is a float from the first addition on, and each addition
    rounds; [count] is an [int]. *)
Fixpoint sum_count (subs : list GameTree) (sum_probs : Q) (count : Z)
  : Q * Z :=
  match subs with
  | [] => (sum_probs, count)
  | subtree :: r =>
      sum_count r (fl (sum_probs + white_win_probability subtree))
                (count + 1)%Z
  end.

(** [_update_white_win_probability].  In [sum_probs / count] the [int]
    is converted to the nearest float and the quotient is rounded. *)
Definition _update_white_win_probability (self : GameTree) : GameTree :=
  match _subtrees self with
  | [] => self
  | first :: others =>
      if is_white_move self then
        set_white_win_probability self
          (py_max_from (white_win_probability first)
                       (map white_win_probability others))
      else
        let '(sum_probs, count) := sum_count (_subtrees self) 0%Q 0%Z in
        set_white_win_probability self
          (fl (sum_probs / fl (inject_Z count)))
  end.

(** [add_subtree]. *)
Definition add_subtree (self subtree : GameTree) : GameTree :=
  _update_white_win_probability
    (set_subtrees self (_subtrees self ++ [subtree])).

(** Writing a mutated child back: the first subtree whose move is [mv]
    (the one [find_subtree_by_move] returned) is replaced by [child]. *)
Fixpoint write_back (mv : string) (child : GameTree) (subs : list GameTree)
  : list GameTree :=
  match subs with
  | [] => []
  | s :: r =>
      if String.eqb (move s) mv then child :: r
      else s :: write_back mv child r
  end.

Lemma removelast_shorter {A : Type} (l : list A) (x : A) :
  py_last l = Some x -> length (removelast l) < length l.
Proof.
  induction l as [|a [|b r] IH]; simpl; intros H.
  - discriminate.
  - lia.
  - simpl in IH. specialize (IH H). lia.
Qed.

(** [rec_helper]: [moves_copy] is the reversed path, consumed from its
    end with [moves_copy[-1]] and [moves_copy.pop()]. *)
Equations rec_helper (self : GameTree) (moves_copy : list string)
  (win_probability : Q) : GameTree by wf (length moves_copy) lt :=
rec_helper self moves_copy win_probability
  with inspect (py_last moves_copy) := {
  | exist _ None _ => self
  | exist _ (Some mv) Hlast with find_subtree_by_move self mv := {
    | None =>
        let new_subtree :=
          GameTree_init mv (negb (is_white_move self)) win_probability in
        _update_white_win_probability
          (set_subtrees self
             (_subtrees self ++
              [rec_helper new_subtree (removelast moves_copy)
                          win_probability]))
    | Some move_tree =>
        _update_white_win_probability
          (set_subtrees self
             (write_back mv
                (rec_helper move_tree (removelast moves_copy)
                            win_probability)
                (_subtrees self))) } }.
Next Obligation. eapply removelast_shorter; eassumption. Qed.
Next Obligation. eapply removelast_shorter; eassumption. Qed.

(** [insert_move_sequence]. *)
Definition insert_move_sequence (self : GameTree) (moves : list string)
  (win_probability : Q) : GameTree :=
  let moves_copy := rev moves in
  rec_helper self moves_copy win_probability.

(** ** The module random *)

(** The generator's state: a tape of raw draws and the position of the
    next one. *)
Record Rng : Type := mkRng {
  tape : nat -> N;
  cursor : nat
}.

Definition next_draw (r : Rng) : N := tape r (cursor r).

Definition advance (r : Rng) : Rng := mkRng (tape r) (S (cursor r)).

(** [random.choice(seq)]: [seq[randbelow(len(seq))]]; on an empty
    sequence it raises [IndexError] ([None]) and draws nothing. *)
Definition random_choice {A : Type} (seq : list A) (r : Rng)
  : option A * Rng :=
  match seq with
  | [] => (None, r)
  | _ :: _ =>
      (nth_error seq (N.to_nat (next_draw r mod N.of_nat (length seq))),
       advance r)
  end.

(** [random.uniform(0.0, 1.0)], that is [0.0 + (1.0 - 0.0) * random()]:
    a multiple of [2^-53] in [[0, 1)]. *)
Definition random_uniform01 (r : Rng) : Q * Rng :=
  (Z.of_N (next_draw r mod 2 ^ 53) # 2 ^ 53, advance r)%Q.

(** ** minichess.MinichessGame, as far as the code uses it *)

Module minichess.
Class MinichessGame (G : Type) : Type := {
  get_valid_moves : G -> list string;
  is_white_move : G -> bool;
  get_winner : G -> option string;
  copy_and_make_move : G -> string -> G
}.
End minichess.

(** ** The tree players

    A player's only attribute that changes is [_game_tree], an
    [Optional[GameTree]].  [make_move] takes it and the generator and
    returns the move ([None] when [random.choice] raises), the new
    [_game_tree] and the generator. *)

Definition MoveResult : Type := (option string * option GameTree * Rng)%type.

(** The first statement of every [make_move]: follow the opponent's move. *)
Definition descend (held : option GameTree) (previous_move : option string)
  : option GameTree :=
  match previous_move, held with
  | Some pm, Some t => find_subtree_by_move t pm
  | _, _ => held
  end.

(** [self._game_tree is None or self._game_tree.get_subtrees() == []]. *)
Definition off_tree (held : option GameTree) : bool :=
  match held with
  | None => true
  | Some t => match get_subtrees t with [] => true | _ :: _ => false end
  end.

(** The branch shared by the three players once the tree is left. *)
Definition random_valid_move {G : Type} `{minichess.MinichessGame G}
  (game : G) (held : option GameTree) (r : Rng) : MoveResult :=
  match random_choice (minichess.get_valid_moves game) r with
  | (Some next_move, r') => (Some next_move, None, r')
  | (None, r') => (None, held, r')
  end.

(** [next_subtree = random.choice(subtrees)], then the assignment and the
    return. *)
Definition random_subtree (t : GameTree) (r : Rng) : MoveResult :=
  match random_choice (get_subtrees t) r with
  | (Some next_subtree, r') => (Some (move next_subtree), Some next_subtree, r')
  | (None, r') => (None, Some t, r')
  end.

(** *** part1.py: RandomTreePlayer *)

Definition RandomTreePlayer_make_move {G : Type} `{minichess.MinichessGame G}
  (held : option GameTree) (game : G) (previous_move : option string)
  (r : Rng) : MoveResult :=
  let held := descend held previous_move in
  if off_tree held then random_valid_move game held r
  else match held with
       | Some t => random_subtree t r
       | None => random_valid_move game held r
       end.

(** *** part2.py: GreedyTreePlayer *)

(** The White scan: [prob] and [highest_prob] after the loop. *)
Fixpoint scan_highest (subs : list GameTree) (prob : Q)
  (highest_prob : option GameTree) : Q * option GameTree :=
  match subs with
  | [] => (prob, highest_prob)
  | subtree :: r =>
      if Qlt_bool prob (white_win_probability subtree)
      then scan_highest r (white_win_probability subtree) (Some subtree)
      else scan_highest r prob highest_prob
  end.

(** The Black scan: [prob1] and [lowest_prob] after the loop. *)
Fixpoint scan_lowest (subs : list GameTree) (prob1 : Q)
  (lowest_prob : option GameTree) : Q * option GameTree :=
  match subs with
  | [] => (prob1, lowest_prob)
  | subtree :: r =>
      if Qlt_bool (white_win_probability subtree) prob1
      then scan_lowest r (white_win_probability subtree) (Some subtree)
      else scan_lowest r prob1 lowest_prob
  end.

(** The [else] branch of [GreedyTreePlayer.make_move]; it is also the
    body of [ExploringPlayer.helper_function2]. *)
Definition greedy_choice {G : Type} `{minichess.MinichessGame G}
  (t : GameTree) (game : G) (r : Rng) : MoveResult :=
  if minichess.is_white_move game then
    match snd (scan_highest (get_subtrees t) 0%Q None) with
    | Some highest_prob => (Some (move highest_prob), Some highest_prob, r)
    | None => random_subtree t r
    end
  else
    match snd (scan_lowest (get_subtrees t) 1%Q None) with
    | Some lowest_prob => (Some (move lowest_prob), Some lowest_prob, r)
    | None => random_subtree t r
    end.

Definition GreedyTreePlayer_make_move {G : Type} `{minichess.MinichessGame G}
  (held : option GameTree) (game : G) (previous_move : option string)
  (r : Rng) : MoveResult :=
  let held := descend held previous_move in
  if off_tree held then random_valid_move game held r
  else match held with
       | Some t => greedy_choice t game r
       | None => random_valid_move game held r
       end.

(** [game_state.get_winner() == 'White']. *)
Definition winner_is_white {G : Type} `{minichess.MinichessGame G}
  (game_state : G) : bool :=
  match minichess.get_winner game_state with
  | Some w => String.eqb w "White"
  | None => false
  end.

(** [generate_complete_game_tree]; [d >= 0] is its precondition, so [d]
    is a natural number.  The two outer branches differ only in the
    probability the root is created with. *)
Fixpoint generate_complete_game_tree {G : Type} `{minichess.MinichessGame G}
  (root_move : string) (game_state : G) (d : nat) : GameTree :=
  if winner_is_white game_state then
    match d with
    | O => GameTree_init root_move (minichess.is_white_move game_state) 1%Q
    | S d' =>
        let valid_moves := minichess.get_valid_moves game_state in
        let tree :=
          GameTree_init root_move (minichess.is_white_move game_state) 1%Q in
        fold_left
          (fun tree mv =>
             let new_tree := minichess.copy_and_make_move game_state mv in
             add_subtree tree (generate_complete_game_tree mv new_tree d'))
          valid_moves tree
    end
  else
    match d with
    | O => GameTree_init root_move (minichess.is_white_move game_state) 0%Q
    | S d' =>
        let valid_moves := minichess.get_valid_moves game_state in
        let tree :=
          GameTree_init root_move (minichess.is_white_move game_state) 0%Q in
        fold_left
          (fun tree x =>
             let new_tree := minichess.copy_and_make_move game_state x in
             add_subtree tree (generate_complete_game_tree x new_tree d'))
          valid_moves tree
    end.

(** *** part3.py: ExploringPlayer *)

(** [next_move not in [tree.move for tree in subtrees]], negated. *)
Definition move_in_subtrees (next_move : string) (subs : list GameTree)
  : bool :=
  existsb (fun mv => String.eqb mv next_move) (map move subs).

(** [helper_function]: the exploring step. *)
Definition helper_function {G : Type} `{minichess.MinichessGame G}
  (t : GameTree) (game : G) (r : Rng) : MoveResult :=
  match random_choice (minichess.get_valid_moves game) r with
  | (None, r') => (None, Some t, r')
  | (Some next_move, r') =>
      let subtrees := get_subtrees t in
      if negb (move_in_subtrees next_move subtrees) then
        (Some next_move, None, r')
      else
        match find_subtree_by_move t next_move with
        | Some next_subtree =>
            (Some (move next_subtree), Some next_subtree, r')
        | None => (None, None, r')
        end
  end.

(** [helper_function2]: the greedy step. *)
Definition helper_function2 {G : Type} `{minichess.MinichessGame G}
  (t : GameTree) (game : G) (r : Rng) : MoveResult :=
  greedy_choice t game r.

Definition ExploringPlayer_make_move {G : Type} `{minichess.MinichessGame G}
  (exploration_probability : Q) (held : option GameTree) (game : G)
  (previous_move : option string) (r : Rng) : MoveResult :=
  let held := descend held previous_move in
  if off_tree held then random_valid_move game held r
  else match held with
       | Some t =>
           let '(number, r') := random_uniform01 r in
           if Qlt_bool number exploration_probability
           then helper_function t game r'
           else helper_function2 t game r'
       | None => random_valid_move game held r
       end.

(** ** Observations on trees used by the statements *)

(** The node reached from [t] by looking up the moves of [path] one after
    the other with [find_subtree_by_move]. *)
Fixpoint node_at (t : GameTree) (path : list string) : option GameTree :=
  match path with
  | [] => Some t
  | mv :: rest =>
      match find_subtree_by_move t mv with
      | Some child => node_at child rest
      | None => None
      end
  end.

(** The subtrees of [t] carry pairwise distinct moves, and so on below. *)
Inductive distinct_moves : GameTree -> Prop :=
| distinct_moves_node : forall t,
    NoDup (map move (_subtrees t)) ->
    Forall distinct_moves (_subtrees t) ->
    distinct_moves t.

(** Every node of [t] has its probability in [[0, 1]]. *)
Inductive probabilities_ok : GameTree -> Prop :=
| probabilities_ok_node : forall t,
    (0 <= white_win_probability t)%Q ->
    (white_win_probability t <= 1)%Q ->
    Forall probabilities_ok (_subtrees t) ->
    probabilities_ok t.

(** Trees obtained with the public operations from probabilities in
    [[0, 1]]. *)
Inductive built : GameTree -> Prop :=
| built_init : forall mv white p,
    (0 <= p)%Q -> (p <= 1)%Q -> built (GameTree_init mv white p)
| built_add_subtree : forall t s,
    built t -> built s -> built (add_subtree t s)
| built_insert : forall t moves p,
    built t -> (0 <= p)%Q -> (p <= 1)%Q ->
    built (insert_move_sequence t moves p).

(** A series of calls of [insert_move_sequence] on the same tree. *)
Definition insert_all (t : GameTree) (calls : list (list string * Q))
  : GameTree :=
  fold_left (fun tree call => insert_move_sequence tree (fst call) (snd call))
            calls t.

(** The sum of a list of probabilities, and their arithmetic mean. *)
Definition Qsum (l : list Q) : Q := fold_right Qplus 0%Q l.

Definition arithmetic_mean (l : list Q) : Q :=
  (Qsum l / inject_Z (Z.of_nat (length l)))%Q.

(** The mean as binary64 arithmetic gives it: the items added from left
    to right, and the quotient by their number, each result rounded. *)
Definition rounded_sum (l : list Q) : Q :=
  fold_left (fun s x => fl (s + x)) l 0%Q.

Definition rounded_mean (l : list Q) : Q :=
  fl (rounded_sum l / fl (inject_Z (Z.of_nat (length l)))).

(** [c] is the first item of [subs] whose probability is the greatest. *)
Definition first_maximum (c : GameTree) (subs : list GameTree) : Prop :=
  exists before after,
    subs = before ++ c :: after /\
    (forall s, In s before ->
               (white_win_probability s < white_win_probability c)%Q) /\
    (forall s, In s after ->
               (white_win_probability s <= white_win_probability c)%Q).

(** [x] is the greatest of the items of [l]. *)
Definition is_maximum (x : Q) (l : list Q) : Prop :=
  In x l /\ Forall (fun y => (y <= x)%Q) l.

(** The cached estimate [p] agrees with the subtrees [subs] of a node
    whose side to move is [white]; nothing is asked of a leaf. *)
Definition agrees_with_subtrees (white : bool) (p : Q)
  (subs : list GameTree) : Prop :=
  match subs with
  | [] => True
  | _ :: _ =>
      if white then is_maximum p (map white_win_probability subs)
      else (p == rounded_mean (map white_win_probability subs))%Q
  end.

Definition recomputed (t : GameTree) : Prop :=
  agrees_with_subtrees (is_white_move t) (white_win_probability t)
                       (_subtrees t).

(** ** Auxiliary definitions for the statements *)

Definition has_move (mv : string) (subtree : GameTree) : bool :=
  String.eqb (move subtree) mv.

(** The subtree an insertion of [mv :: _] descends into: the one found,
    or the one created. *)
Definition child_for (t : GameTree) (mv : string) (q : Q) : GameTree :=
  match find_subtree_by_move t mv with
  | Some move_tree => move_tree
  | None => GameTree_init mv (negb (is_white_move t)) q
  end.

(** The tree of [build_sample_game_tree] in part0.py. *)
Definition build_sample_game_tree : GameTree :=
  let game_tree := GameTree_init GAME_START_MOVE true 0%Q in
  let game_tree := add_subtree game_tree (GameTree_init "a2b3" false 0%Q) in
  let game_tree := add_subtree game_tree (GameTree_init "b2c3" false 0%Q) in
  let game_tree := add_subtree game_tree (GameTree_init "b2a3" false 0%Q) in
  let sub1 := GameTree_init "c2d3" false 0%Q in
  let sub2 := GameTree_init "d4d3" true 0%Q in
  let sub2 := add_subtree sub2 (GameTree_init "d2c3" false 0%Q) in
  let sub2 := add_subtree sub2 (GameTree_init "b1d3" false 0%Q) in
  let sub1 := add_subtree sub1 sub2 in
  let game_tree := add_subtree game_tree sub1 in
  let game_tree := add_subtree game_tree (GameTree_init "c2b3" false 0%Q) in
  let game_tree := add_subtree game_tree (GameTree_init "d2c3" false 0%Q) in
  game_tree.

Definition in_unit_interval (p : Q) : Prop := (0 <= p)%Q /\ (p <= 1)%Q.

(** [reaches g t k g' n]: [n] is a node of [t], [k] edges below its root,
    and [g'] is the state obtained from [g] by the moves on the way. *)
Inductive reaches {G : Type} `{minichess.MinichessGame G}
  : G -> GameTree -> nat -> G -> GameTree -> Prop :=
| reaches_root : forall g t, reaches g t 0 g t
| reaches_subtree : forall g t c k g' n,
    In c (_subtrees t) ->
    reaches (minichess.copy_and_make_move g (move c)) c k g' n ->
    reaches g t (S k) g' n.

(** A stand-in for the rules engine: a game that ends after a given
    number of plies, with two moves in every position before that. *)
Inductive Countdown : Type := countdown (plies : nat).

#[export] Instance Countdown_game : minichess.MinichessGame Countdown := {
  get_valid_moves g :=
    match g with
    | countdown 0 => []
    | countdown (S _) => ["a1a2"; "b1b2"]%string
    end;
  is_white_move g := match g with countdown n => Nat.even n end;
  get_winner g :=
    match g with
    | countdown 0 => Some "White"%string
    | countdown (S _) => None
    end;
  copy_and_make_move g _ := match g with countdown n => countdown (pred n) end
}.

(** The float [0.1], and a Black node over three subtrees of that
    estimate, before its estimate is recomputed. *)
Definition tenth : Q := fl (1 # 10).

Definition three_tenths : GameTree :=
  mkGameTree "a2b3" false 0%Q
    [GameTree_init "d2c3" true tenth; GameTree_init "b1d3" true tenth;
     GameTree_init "c2b3" true tenth].

(** A White node whose second subtree stands out. *)
Definition one_good_move : GameTree :=
  let tree := GameTree_init GAME_START_MOVE true 0%Q in
  let tree := add_subtree tree (GameTree_init "a2b3" false (1 # 10)) in
  let tree := add_subtree tree (GameTree_init "b2c3" false (9 # 10)) in
  let tree := add_subtree tree (GameTree_init "b2a3" false (1 # 10)) in
  tree.

(** A generator whose [i]-th draw is [i]. *)
Definition counting_rng : Rng := mkRng N.of_nat 0.

(** What a call of [make_move] shows to the game: the move returned and
    the new [_game_tree]. *)
Definition outcome (m : MoveResult) : option string * option GameTree :=
  fst m.

(** The subtrees among which the greedy step finds its choice without
    drawing: one above 0 for White, one below 1 for Black. *)
Definition greedy_decides (white : bool) (subs : list GameTree) : Prop :=
  if white
  then Exists (fun s => (0 < white_win_probability s)%Q) subs
  else Exists (fun s => (white_win_probability s < 1)%Q) subs.

(** The [_game_tree] of a player after a series of later calls of its
    [make_move], each with its own game state and previous move. *)
Fixpoint held_after {G : Type}
  (make_move : option GameTree -> G -> option string -> Rng -> MoveResult)
  (held : option GameTree) (r : Rng) (calls : list (G * option string))
  : option GameTree :=
  match calls with
  | [] => held
  | (game, previous_move) :: later =>
      let '(_, held', r') := make_move held game previous_move r in
      held_after make_move held' r' later
  end.

(** ** More of the sources *)

(** [_str_indented]: one line per node, indented by two spaces per level,
    the subtrees after their parent.  [chr 10] is the line feed. *)
Definition newline : string := String (Ascii.ascii_of_nat 10) EmptyString.

Fixpoint indentation (depth : nat) : string :=
  match depth with
  | O => EmptyString
  | S d => ("  " ++ indentation d)%string
  end.

Fixpoint _str_indented (self : GameTree) (depth : nat) : string :=
  match self with
  | mkGameTree mv white _ subs =>
      let turn_desc :=
        if white then "White's move"%string else "Black's move"%string in
      let move_desc := (mv ++ " -> " ++ turn_desc ++ newline)%string in
      let s := (indentation depth ++ move_desc)%string in
      (fix each (subtrees : list GameTree) (s : string) : string :=
         match subtrees with
         | [] => s
         | subtree :: r =>
             each r (s ++ _str_indented subtree (depth + 1))%string
         end) subs s
  end.

(** [__str__]. *)
Definition GameTree_str (self : GameTree) : string := _str_indented self 0.

(** [load_game_tree] of part1.py, on the rows that [csv.reader] yields. *)
Definition load_game_tree (rows : list (list string)) : GameTree :=
  let tree := GameTree_default in
  fold_left (fun tree row => insert_move_sequence tree row 0%Q) rows tree.

(** [run_learning_algorithm] of part3.py.  [minichess.run_game] is not
    part of the sources: it is the parameter [run_game], which gets the
    tree and the exploration probability of the White [ExploringPlayer]
    and returns the winner and the moves of the game.  The statistics
    plot is left out; the list of winners is returned with the tree. *)
Definition learning_game
  (run_game : GameTree -> Q -> Rng -> (string * list string) * Rng)
  (state : GameTree * list string * Rng) (exploration_probability : Q)
  : GameTree * list string * Rng :=
  let '(game_tre, results_so_far, r) := state in
  let '(game, r') := run_game game_tre exploration_probability r in
  let results_so_far := results_so_far ++ [fst game] in
  if String.eqb (fst game) "White"
  then (insert_move_sequence game_tre (snd game) 1%Q, results_so_far, r')
  else (insert_move_sequence game_tre (snd game) 0%Q, results_so_far, r').

Definition run_learning_algorithm
  (run_game : GameTree -> Q -> Rng -> (string * list string) * Rng)
  (exploration_probabilities : list Q) (r : Rng)
  : GameTree * list string * Rng :=
  fold_left (learning_game run_game) exploration_probabilities
            (GameTree_default, [], r).

(** ** Further observations used by the statements *)

(** The number of nodes of a tree. *)
Fixpoint size (t : GameTree) : nat :=
  match t with
  | mkGameTree _ _ _ subs =>
      S ((fix total (l : list GameTree) : nat :=
            match l with
            | [] => 0
            | s :: r => size s + total r
            end) subs)
  end.

(** The number of nodes of a list of trees. *)
Definition total_size (subs : list GameTree) : nat :=
  list_sum (map size subs).

(** How many moves of [path] are found, one after the other, from [t]. *)
Fixpoint present_prefix (t : GameTree) (path : list string) : nat :=
  match path with
  | [] => 0
  | mv :: rest =>
      match find_subtree_by_move t mv with
      | Some child => S (present_prefix child rest)
      | None => 0
      end
  end.

(** Below every node the side to move is the other one. *)
Inductive sides_alternate : GameTree -> Prop :=
| sides_alternate_node : forall t,
    Forall (fun c => is_white_move c = negb (is_white_move t))
           (_subtrees t) ->
    Forall sides_alternate (_subtrees t) ->
    sides_alternate t.

(** Every node with subtrees carries the estimate computed from them:
    [recomputed] holds of every node of the tree. *)
Inductive all_recomputed : GameTree -> Prop :=
| all_recomputed_node : forall t,
    recomputed t ->
    Forall all_recomputed (_subtrees t) ->
    all_recomputed t.

(** Every estimate in the tree equals [q]. *)
Inductive estimates_equal (q : Q) : GameTree -> Prop :=
| estimates_equal_node : forall t,
    (white_win_probability t == q)%Q ->
    Forall (estimates_equal q) (_subtrees t) ->
    estimates_equal q t.

(** [n] is [t] or a node below it. *)
Inductive node_of : GameTree -> GameTree -> Prop :=
| node_of_root : forall t, node_of t t
| node_of_subtree : forall t c n,
    In c (_subtrees t) -> node_of c n -> node_of t n.

(** A player's [_game_tree] is [None] or a node of [t]. *)
Definition held_within (t : GameTree) (held : option GameTree) : Prop :=
  match held with
  | None => True
  | Some n => node_of t n
  end.

(** [path] can be played from [g]: each move is valid where it is made. *)
Fixpoint valid_path {G : Type} `{minichess.MinichessGame G}
  (g : G) (path : list string) : Prop :=
  match path with
  | [] => True
  | mv :: rest =>
      In mv (minichess.get_valid_moves g) /\
      valid_path (minichess.copy_and_make_move g mv) rest
  end.

(** [c] is the first item of [subs] whose probability is the least. *)
Definition first_minimum (c : GameTree) (subs : list GameTree) : Prop :=
  exists before after,
    subs = before ++ c :: after /\
    (forall s, In s before ->
               (white_win_probability c < white_win_probability s)%Q) /\
    (forall s, In s after ->
               (white_win_probability c <= white_win_probability s)%Q).

(** The number of line feeds in a string. *)
Fixpoint count_newlines (s : string) : nat :=
  match s with
  | EmptyString => 0
  | String a r =>
      (if Ascii.eqb a (Ascii.ascii_of_nat 10) then 1 else 0)
      + count_newlines r
  end.

(** * Properties *)

Unset Implicit Arguments.

(** ** Rounding to the nearest binary64 number *)

Section rounding.
Local Open Scope Q_scope.

Lemma pow2_pos (e : Z) : 0 < 2 ^ e.
Proof. apply Qpower_0_lt. reflexivity. Qed.

Lemma pow2_nonzero (e : Z) : ~ 2 ^ e == 0.
Proof. intros H. pose proof (pow2_pos e) as Hp. rewrite H in Hp. discriminate. Qed.

Lemma pow2_add (a b : Z) : 2 ^ (a + b) == 2 ^ a * 2 ^ b.
Proof. apply Qpower_plus. discriminate. Qed.

Lemma pow2_le (a b : Z) : (a <= b)%Z -> 2 ^ a <= 2 ^ b.
Proof. intros H. apply Qpower_le_compat_l; [exact H | discriminate]. Qed.

Lemma pow2_lt (a b : Z) : (a < b)%Z -> 2 ^ a < 2 ^ b.
Proof. intros H. apply Qpower_lt_compat_l; [exact H | reflexivity]. Qed.

Lemma pow2_lt_inv (a b : Z) : 2 ^ a < 2 ^ b -> (a < b)%Z.
Proof. intros H. apply (Qpower_lt_compat_l_inv 2); [exact H | reflexivity]. Qed.

Lemma pow2_Z (n : Z) : (0 <= n)%Z -> 2 ^ n == inject_Z (2 ^ n).
Proof. intros H. symmetry. apply (Zpower_Qpower 2 n H). Qed.

Lemma pow2_sub (a b : Z) : 2 ^ (a - b) == 2 ^ a / 2 ^ b.
Proof. apply Qpower_minus. discriminate. Qed.

Lemma log2_ratio_bounds (n : Z) (d : positive) :
  (0 < n)%Z ->
  2 ^ (Z.log2 n - Z.log2 (Zpos d) - 1) <= n # d /\
  n # d < 2 ^ (Z.log2 n - Z.log2 (Zpos d) + 1).
Proof.
  intros Hn.
  destruct (Z.log2_spec n Hn) as [Hn1 Hn2].
  destruct (Z.log2_spec (Zpos d) (Pos2Z.is_pos d)) as [Hd1 Hd2].
  pose proof (Z.log2_nonneg n) as Hln.
  pose proof (Z.log2_nonneg (Zpos d)) as Hld.
  set (ln := Z.log2 n) in *. set (ld := Z.log2 (Zpos d)) in *.
  split.
  - replace (ln - ld - 1)%Z with (ln - (ld + 1))%Z by ring.
    rewrite pow2_sub, (pow2_Z ln), (pow2_Z (ld + 1)) by lia.
    apply Qle_shift_div_r.
    + change 0 with (inject_Z 0). rewrite <- Zlt_Qlt. lia.
    + unfold Qle, Qmult, inject_Z. cbn [Qnum Qden]. nia.
  - replace (ln - ld + 1)%Z with (ln + 1 - ld)%Z by ring.
    rewrite pow2_sub, (pow2_Z (ln + 1)), (pow2_Z ld) by lia.
    apply Qlt_shift_div_l.
    + change 0 with (inject_Z 0). rewrite <- Zlt_Qlt. lia.
    + unfold Qlt, Qmult, inject_Z. cbn [Qnum Qden]. nia.
Qed.

Lemma floor_log2_spec (x : Q) :
  0 < x -> 2 ^ floor_log2 x <= x /\ x < 2 ^ (floor_log2 x + 1).
Proof.
  intros Hx. destruct x as [n d].
  assert (Hn : (0 < n)%Z) by (unfold Qlt in Hx; simpl in Hx; lia).
  destruct (log2_ratio_bounds n d Hn) as [Hlo Hhi].
  unfold floor_log2. cbn [Qnum Qden].
  set (e := (Z.log2 n - Z.log2 (Z.pos d))%Z) in *.
  destruct (Qle_bool (2 ^ e) (n # d)) eqn:E.
  - apply Qle_bool_iff in E. split; assumption.
  - split; [exact Hlo|].
    replace (e - 1 + 1)%Z with e by ring.
    apply Qnot_le_lt. intros H. apply Qle_bool_iff in H. congruence.
Qed.

Lemma floor_log2_unique (x : Q) (a : Z) :
  2 ^ a <= x -> x < 2 ^ (a + 1) -> floor_log2 x = a.
Proof.
  intros Hlo Hhi.
  assert (Hx : 0 < x) by (eapply Qlt_le_trans; [apply pow2_pos | exact Hlo]).
  destruct (floor_log2_spec x Hx) as [Hlo' Hhi'].
  assert (H1 : (floor_log2 x < a + 1)%Z)
    by (apply pow2_lt_inv; eapply Qle_lt_trans; eassumption).
  assert (H2 : (a < floor_log2 x + 1)%Z)
    by (apply pow2_lt_inv; eapply Qle_lt_trans; eassumption).
  lia.
Qed.

Lemma floor_log2_comp (x y : Q) : 0 < x -> x == y -> floor_log2 x = floor_log2 y.
Proof.
  intros Hx E. destruct (floor_log2_spec x Hx) as [Hlo Hhi].
  symmetry. apply floor_log2_unique; rewrite <- E; assumption.
Qed.

Lemma floor_log2_mono (x y : Q) :
  0 < x -> x <= y -> (floor_log2 x <= floor_log2 y)%Z.
Proof.
  intros Hx Hxy.
  assert (Hy : 0 < y) by (eapply Qlt_le_trans; eassumption).
  destruct (floor_log2_spec x Hx) as [Hlo _].
  destruct (floor_log2_spec y Hy) as [_ Hhi].
  assert (H : (floor_log2 x < floor_log2 y + 1)%Z).
  { apply pow2_lt_inv. eapply Qle_lt_trans; [exact Hlo|].
    eapply Qle_lt_trans; eassumption. }
  lia.
Qed.

(** round_half_even *)

Lemma round_half_even_bounds (x : Q) :
  (Qfloor x <= round_half_even x <= Qfloor x + 1)%Z.
Proof.
  unfold round_half_even.
  destruct (Qcompare (x - inject_Z (Qfloor x)) (1 # 2)); [|lia|lia].
  destruct (Z.even (Qfloor x)); lia.
Qed.

Lemma round_half_even_Z (n : Z) : round_half_even (inject_Z n) = n.
Proof.
  unfold round_half_even. rewrite Qfloor_Z.
  assert (E : inject_Z n - inject_Z n == 0) by ring.
  rewrite E. reflexivity.
Qed.

Lemma round_half_even_comp (x y : Q) :
  x == y -> round_half_even x = round_half_even y.
Proof.
  intros E. unfold round_half_even. rewrite (Qfloor_comp x y E).
  assert (E' : x - inject_Z (Qfloor y) == y - inject_Z (Qfloor y))
    by (rewrite E; reflexivity).
  rewrite E'. reflexivity.
Qed.

Lemma round_half_even_ge (x : Q) (n : Z) :
  inject_Z n <= x -> (n <= round_half_even x)%Z.
Proof.
  intros H. pose proof (round_half_even_bounds x) as Hb.
  apply Qfloor_resp_le in H. rewrite Qfloor_Z in H. lia.
Qed.

Lemma round_half_even_le (x : Q) (n : Z) :
  x <= inject_Z n -> (round_half_even x <= n)%Z.
Proof.
  intros H. pose proof (round_half_even_bounds x) as Hb.
  destruct (Z.eq_dec (Qfloor x) n) as [E|E].
  - assert (Ex : x == inject_Z n).
    { apply Qle_antisym; [exact H|]. rewrite <- E. apply Qfloor_le. }
    rewrite (round_half_even_comp _ _ Ex), round_half_even_Z. lia.
  - pose proof (Qfloor_resp_le _ _ H) as Hf. rewrite Qfloor_Z in Hf. lia.
Qed.

Lemma round_half_even_mono (x y : Q) :
  x <= y -> (round_half_even x <= round_half_even y)%Z.
Proof.
  intros H. pose proof (Qfloor_resp_le _ _ H) as Hf.
  destruct (Z.eq_dec (Qfloor x) (Qfloor y)) as [E|E].
  - unfold round_half_even. rewrite E.
    set (f := Qfloor y).
    assert (Hd : x - inject_Z f <= y - inject_Z f).
    { apply Qplus_le_compat; [exact H | apply Qle_refl]. }
    destruct (Qcompare (x - inject_Z f) (1 # 2)) eqn:Cx;
      destruct (Qcompare (y - inject_Z f) (1 # 2)) eqn:Cy;
      try (destruct (Z.even f)); try lia; exfalso;
      repeat match goal with
             | C : Qcompare _ _ = Eq |- _ => apply Qeq_alt in C
             | C : Qcompare _ _ = Lt |- _ => apply Qlt_alt in C
             | C : Qcompare _ _ = Gt |- _ => apply Qgt_alt in C
             end; lra.
  - pose proof (round_half_even_bounds x). pose proof (round_half_even_bounds y).
    lia.
Qed.

Lemma ulp_exponent_mono (x y : Q) :
  0 < x -> x <= y -> (ulp_exponent x <= ulp_exponent y)%Z.
Proof.
  intros Hx Hxy. unfold ulp_exponent.
  pose proof (floor_log2_mono x y Hx Hxy). lia.
Qed.

Lemma ulp_exponent_comp (x y : Q) :
  0 < x -> x == y -> ulp_exponent x = ulp_exponent y.
Proof.
  intros Hx E. unfold ulp_exponent. rewrite (floor_log2_comp x y Hx E).
  reflexivity.
Qed.

Lemma pow2_split (g e : Z) :
  (e <= g)%Z -> 2 ^ g == inject_Z (2 ^ (g - e)) * 2 ^ e.
Proof.
  intros H. rewrite <- (pow2_Z (g - e)) by lia. rewrite <- pow2_add.
  replace (g - e + e)%Z with g by ring. reflexivity.
Qed.

Lemma scaled_by_grid (x : Q) (n g e : Z) :
  (e <= g)%Z ->
  inject_Z n * 2 ^ g / 2 ^ e == inject_Z (n * 2 ^ (g - e)).
Proof.
  intros H. rewrite (pow2_split g e H), inject_Z_mult.
  field. apply pow2_nonzero.
Qed.

Lemma fl_pos_le_grid (x : Q) (n g : Z) :
  (ulp_exponent x <= g)%Z ->
  x <= inject_Z n * 2 ^ g -> fl_pos x <= inject_Z n * 2 ^ g.
Proof.
  intros Hg Hx. unfold fl_pos. set (e := ulp_exponent x) in *.
  assert (Hs : x / 2 ^ e <= inject_Z (n * 2 ^ (g - e))).
  { rewrite <- (scaled_by_grid x n g e Hg).
    apply Qmult_le_compat_r; [exact Hx|].
    apply Qlt_le_weak, Qinv_lt_0_compat, pow2_pos. }
  apply round_half_even_le in Hs. rewrite Zle_Qle in Hs.
  rewrite (pow2_split g e Hg), Qmult_assoc, <- inject_Z_mult.
  apply Qmult_le_compat_r; [exact Hs | apply Qlt_le_weak, pow2_pos].
Qed.

Lemma fl_pos_ge_grid (x : Q) (n g : Z) :
  (ulp_exponent x <= g)%Z ->
  inject_Z n * 2 ^ g <= x -> inject_Z n * 2 ^ g <= fl_pos x.
Proof.
  intros Hg Hx. unfold fl_pos. set (e := ulp_exponent x) in *.
  assert (Hs : inject_Z (n * 2 ^ (g - e)) <= x / 2 ^ e).
  { rewrite <- (scaled_by_grid x n g e Hg).
    apply Qmult_le_compat_r; [exact Hx|].
    apply Qlt_le_weak, Qinv_lt_0_compat, pow2_pos. }
  apply round_half_even_ge in Hs. rewrite Zle_Qle in Hs.
  rewrite (pow2_split g e Hg), Qmult_assoc, <- inject_Z_mult.
  apply Qmult_le_compat_r; [exact Hs | apply Qlt_le_weak, pow2_pos].
Qed.

Lemma fl_pos_exact (x : Q) (n g : Z) :
  (ulp_exponent x <= g)%Z -> x == inject_Z n * 2 ^ g -> fl_pos x == x.
Proof.
  intros Hg E. apply Qle_antisym.
  - rewrite E at 2. apply fl_pos_le_grid; [exact Hg|]. rewrite E. apply Qle_refl.
  - rewrite E at 1. apply fl_pos_ge_grid; [exact Hg|]. rewrite E. apply Qle_refl.
Qed.

Lemma fl_pos_comp (x y : Q) : 0 < x -> x == y -> fl_pos x == fl_pos y.
Proof.
  intros Hx E. unfold fl_pos. rewrite (ulp_exponent_comp x y Hx E).
  assert (E' : x / 2 ^ ulp_exponent y == y / 2 ^ ulp_exponent y)
    by (rewrite E; reflexivity).
  rewrite (round_half_even_comp _ _ E'). reflexivity.
Qed.

Lemma fl_pos_mono (x y : Q) : 0 < x -> x <= y -> fl_pos x <= fl_pos y.
Proof.
  intros Hx Hxy.
  assert (Hy : 0 < y) by (eapply Qlt_le_trans; eassumption).
  pose proof (ulp_exponent_mono x y Hx Hxy) as He.
  destruct (Z.eq_dec (ulp_exponent x) (ulp_exponent y)) as [E|E].
  - unfold fl_pos. rewrite E.
    apply Qmult_le_compat_r; [|apply Qlt_le_weak, pow2_pos].
    rewrite <- Zle_Qle. apply round_half_even_mono.
    apply Qmult_le_compat_r; [exact Hxy|].
    apply Qlt_le_weak, Qinv_lt_0_compat, pow2_pos.
  - assert (Hey : ulp_exponent y = (floor_log2 y - 52)%Z)
      by (unfold ulp_exponent in *; lia).
    assert (Hlx : (floor_log2 x + 1 <= floor_log2 y)%Z)
      by (unfold ulp_exponent in *; lia).
    destruct (floor_log2_spec x Hx) as [_ Hxhi].
    destruct (floor_log2_spec y Hy) as [Hylo _].
    assert (HB : 2 ^ floor_log2 y == inject_Z (2 ^ 52) * 2 ^ ulp_exponent y).
    { rewrite Hey, <- (pow2_Z 52) by lia. rewrite <- pow2_add.
      replace (52 + (floor_log2 y - 52))%Z with (floor_log2 y) by ring.
      reflexivity. }
    apply Qle_trans with (inject_Z (2 ^ 52) * 2 ^ ulp_exponent y).
    + apply fl_pos_le_grid; [lia|]. rewrite <- HB.
      apply Qlt_le_weak. eapply Qlt_le_trans; [exact Hxhi|].
      apply pow2_le. exact Hlx.
    + apply fl_pos_ge_grid; [lia|]. rewrite <- HB. exact Hylo.
Qed.

Lemma fl_pos_nonneg (x : Q) : 0 < x -> 0 <= fl_pos x.
Proof.
  intros Hx.
  assert (H : inject_Z 0 * 2 ^ ulp_exponent x <= fl_pos x).
  { apply fl_pos_ge_grid; [lia|]. rewrite Qmult_0_l.
    apply Qlt_le_weak, Hx. }
  rewrite Qmult_0_l in H. exact H.
Qed.

Lemma fl_of_zero (x : Q) : x == 0 -> fl x = 0.
Proof.
  intros E. unfold fl. unfold Qeq in E. simpl in E.
  rewrite Z.mul_1_r in E. rewrite E. reflexivity.
Qed.

Lemma fl_of_positive (x : Q) : 0 < x -> fl x = fl_pos x.
Proof.
  intros H. unfold fl. unfold Qlt in H. simpl in H. rewrite Z.mul_1_r in H.
  destruct (Qnum x); [lia | reflexivity | lia].
Qed.

Lemma fl_of_negative (x : Q) : x < 0 -> fl x = - fl_pos (- x).
Proof.
  intros H. unfold fl. unfold Qlt in H. simpl in H. rewrite Z.mul_1_r in H.
  destruct (Qnum x); [lia | lia | reflexivity].
Qed.

Lemma fl_comp (x y : Q) : x == y -> fl x == fl y.
Proof.
  intros E. destruct (Q_dec x 0) as [[H|H]|H].
  - rewrite (fl_of_negative x H), (fl_of_negative y) by (rewrite <- E; exact H).
    apply Qopp_comp. apply fl_pos_comp; [lra | rewrite E; reflexivity].
  - rewrite (fl_of_positive x H), (fl_of_positive y) by (rewrite <- E; exact H).
    apply fl_pos_comp; assumption.
  - rewrite (fl_of_zero x H), (fl_of_zero y) by (rewrite <- E; exact H).
    reflexivity.
Qed.

Lemma fl_nonneg (x : Q) : 0 <= x -> 0 <= fl x.
Proof.
  intros H. destruct (Qle_lt_or_eq _ _ H) as [Hp|Hz].
  - rewrite (fl_of_positive x Hp). apply fl_pos_nonneg, Hp.
  - rewrite (fl_of_zero x) by (symmetry; exact Hz). apply Qle_refl.
Qed.

Lemma fl_mono (x y : Q) : 0 <= x -> x <= y -> fl x <= fl y.
Proof.
  intros Hx Hxy. destruct (Qle_lt_or_eq _ _ Hx) as [Hp|Hz].
  - rewrite (fl_of_positive x Hp), (fl_of_positive y) by lra.
    apply fl_pos_mono; assumption.
  - rewrite (fl_of_zero x) by (symmetry; exact Hz). apply fl_nonneg. lra.
Qed.

Lemma fl_integer (k : Z) :
  (0 <= k <= 2 ^ 53)%Z -> fl (inject_Z k) == inject_Z k.
Proof.
  intros Hk.
  destruct (Z.eq_dec k 0) as [->|Hk0]; [reflexivity|].
  destruct (Z.eq_dec k (2 ^ 53)) as [->|Hk1]; [vm_compute; reflexivity|].
  assert (Hp : 0 < inject_Z k)
    by (change 0 with (inject_Z 0); rewrite <- Zlt_Qlt; lia).
  rewrite (fl_of_positive _ Hp).
  apply (fl_pos_exact _ k 0); [|simpl; ring].
  destruct (floor_log2_spec _ Hp) as [Hlo _].
  assert (Hlt : 2 ^ floor_log2 (inject_Z k) < 2 ^ 53).
  { eapply Qle_lt_trans; [exact Hlo|]. rewrite (pow2_Z 53) by lia.
    rewrite <- Zlt_Qlt. lia. }
  apply pow2_lt_inv in Hlt. unfold ulp_exponent. lia.
Qed.

Lemma fl_saturates : fl (inject_Z (2 ^ 53) + 1) == inject_Z (2 ^ 53).
Proof. vm_compute. reflexivity. Qed.

Lemma fl_one : fl 1 == 1.
Proof. vm_compute. reflexivity. Qed.

End rounding.

(** The rounding agrees with the binary64 arithmetic of the machine on
    sample sums and quotients, among them a tie, numbers beyond 2^53 and
    subnormal numbers. *)
Example fl_agrees_with_binary64 :
  forallb
    (fun ab =>
       Qeq_bool (Q_of_float (fst ab + snd ab)%float)
                (fl (Q_of_float (fst ab) + Q_of_float (snd ab))) &&
       Qeq_bool (Q_of_float (fst ab / snd ab)%float)
                (fl (Q_of_float (fst ab) / Q_of_float (snd ab))))
    [(0x1.999999999999ap-4, 0x1.999999999999ap-3);
     (0x1.3333333333334p-2, 0x1.999999999999ap-4);
     (0x1.3333333333334p-2, 3); (1, 3); (2, 3); (0x1p-1074, 3);
     (0x1.8p-1070, 0x1p-1074); (0x1p+53, 1); (0x1p+53, 3);
     (0x1.fffffffffffffp-1, 0x1p-53)]%float = true /\
  Qeq_bool (Q_of_float 0x1.999999999999ap-4%float) (fl (1 # 10)) = true.
Proof. split; vm_compute; reflexivity. Qed.

(** ** Unfolding [insert_move_sequence] along the path *)

Lemma py_last_snoc {A : Type} (l : list A) (x : A) :
  py_last (l ++ [x]) = Some x.
Proof.
  induction l as [|a l IH]; simpl; [reflexivity|].
  destruct (l ++ [x]) eqn:E; [destruct l; discriminate | exact IH].
Qed.

Lemma rec_helper_nil (self : GameTree) (q : Q) : rec_helper self [] q = self.
Proof. rewrite rec_helper_equation_1. reflexivity. Qed.

Lemma rec_helper_body (self : GameTree) (moves_copy : list string)
  (q : Q) :
  rec_helper self moves_copy q =
  match py_last moves_copy with
  | None => self
  | Some mv =>
      match find_subtree_by_move self mv with
      | None =>
          _update_white_win_probability
            (set_subtrees self
               (_subtrees self ++
                [rec_helper (GameTree_init mv (negb (is_white_move self)) q)
                            (removelast moves_copy) q]))
      | Some move_tree =>
          _update_white_win_probability
            (set_subtrees self
               (write_back mv
                  (rec_helper move_tree (removelast moves_copy) q)
                  (_subtrees self)))
      end
  end.
Proof.
  rewrite rec_helper_equation_1. unfold inspect.
  generalize (@eq_refl _ (py_last moves_copy)).
  generalize (py_last moves_copy) at 2 4 5. intros o e.
  destruct o as [mv|]; simpl; [|reflexivity].
  destruct (find_subtree_by_move self mv); reflexivity.
Qed.

Lemma rec_helper_snoc (self : GameTree) (l : list string) (mv : string)
  (q : Q) :
  rec_helper self (l ++ [mv]) q =
  match find_subtree_by_move self mv with
  | None =>
      _update_white_win_probability
        (set_subtrees self
           (_subtrees self ++
            [rec_helper (GameTree_init mv (negb (is_white_move self)) q) l q]))
  | Some move_tree =>
      _update_white_win_probability
        (set_subtrees self
           (write_back mv (rec_helper move_tree l q) (_subtrees self)))
  end.
Proof.
  rewrite rec_helper_body, py_last_snoc, removelast_last. reflexivity.
Qed.

Lemma insert_move_sequence_nil (self : GameTree) (q : Q) :
  insert_move_sequence self [] q = self.
Proof. apply rec_helper_nil. Qed.

Lemma insert_move_sequence_cons (self : GameTree) (mv : string)
  (rest : list string) (q : Q) :
  insert_move_sequence self (mv :: rest) q =
  match find_subtree_by_move self mv with
  | None =>
      _update_white_win_probability
        (set_subtrees self
           (_subtrees self ++
            [insert_move_sequence
               (GameTree_init mv (negb (is_white_move self)) q) rest q]))
  | Some move_tree =>
      _update_white_win_probability
        (set_subtrees self
           (write_back mv (insert_move_sequence move_tree rest q)
                       (_subtrees self)))
  end.
Proof.
  unfold insert_move_sequence. simpl rev. apply rec_helper_snoc.
Qed.

(** ** Induction on trees *)

Section GameTree_induction.
Variable P : GameTree -> Prop.
Hypothesis P_node :
  forall mv white p subs, Forall P subs -> P (mkGameTree mv white p subs).

Fixpoint GameTree_ind (t : GameTree) : P t :=
  match t with
  | mkGameTree mv white p subs =>
      P_node mv white p subs
        ((fix all (l : list GameTree) : Forall P l :=
            match l with
            | [] => Forall_nil P
            | s :: r => Forall_cons s (GameTree_ind s) (all r)
            end) subs)
  end.
End GameTree_induction.

(** ** The recomputation rule *)

Lemma Qlt_bool_iff (x y : Q) : Qlt_bool x y = true <-> (x < y)%Q.
Proof. unfold Qlt_bool, Qlt. apply Z.ltb_lt. Qed.

Lemma Qlt_bool_false (x y : Q) : Qlt_bool x y = false <-> (y <= x)%Q.
Proof. unfold Qlt_bool, Qle. apply Z.ltb_ge. Qed.

Lemma py_max_from_ge (l : list Q) (cur : Q) :
  (cur <= py_max_from cur l)%Q /\
  Forall (fun y => (y <= py_max_from cur l)%Q) l.
Proof.
  revert cur. induction l as [|x r IH]; intros cur; simpl.
  - split; [apply Qle_refl | constructor].
  - destruct (Qlt_bool cur x) eqn:E.
    + apply Qlt_bool_iff in E. destruct (IH x) as [Hx Hr].
      split; [|constructor; assumption].
      apply Qle_trans with x; [apply Qlt_le_weak|]; assumption.
    + apply Qlt_bool_false in E. destruct (IH cur) as [Hc Hr].
      split; [assumption|]. constructor; [|assumption].
      apply Qle_trans with cur; assumption.
Qed.

Lemma py_max_from_in (l : list Q) (cur : Q) :
  In (py_max_from cur l) (cur :: l).
Proof.
  revert cur. induction l as [|x r IH]; intros cur; simpl.
  - left; reflexivity.
  - destruct (Qlt_bool cur x).
    + right. apply IH.
    + destruct (IH cur) as [H|H]; [left | right; right]; assumption.
Qed.

Lemma py_max_from_is_maximum (cur : Q) (l : list Q) :
  is_maximum (py_max_from cur l) (cur :: l).
Proof.
  split; [apply py_max_from_in|].
  destruct (py_max_from_ge l cur). constructor; assumption.
Qed.

Lemma sum_count_spec (subs : list GameTree) (s : Q) (n : Z) :
  fst (sum_count subs s n) =
    fold_left (fun s x => fl (s + x)) (map white_win_probability subs) s /\
  snd (sum_count subs s n) = (n + Z.of_nat (length subs))%Z.
Proof.
  revert s n. induction subs as [|c r IH]; intros s n; simpl.
  - split; [reflexivity | lia].
  - destruct (IH (fl (s + white_win_probability c)) (n + 1)%Z) as [Hs Hn].
    split; [exact Hs | rewrite Hn; lia].
Qed.

Lemma update_move (t : GameTree) :
  move (_update_white_win_probability t) = move t.
Proof.
  unfold _update_white_win_probability.
  destruct (_subtrees t); [reflexivity|].
  destruct (is_white_move t); [reflexivity|].
  destruct (sum_count _ _ _); reflexivity.
Qed.

Lemma update_is_white_move (t : GameTree) :
  is_white_move (_update_white_win_probability t) = is_white_move t.
Proof.
  unfold _update_white_win_probability.
  destruct (_subtrees t); [reflexivity|].
  destruct (is_white_move t) eqn:E; [simpl; auto|].
  destruct (sum_count _ _ _); simpl; auto.
Qed.

Lemma update_subtrees (t : GameTree) :
  _subtrees (_update_white_win_probability t) = _subtrees t.
Proof.
  unfold _update_white_win_probability.
  destruct (_subtrees t) eqn:E; [assumption|].
  destruct (is_white_move t); [simpl; auto|].
  destruct (sum_count _ _ _); simpl; auto.
Qed.

Lemma update_agrees (t : GameTree) :
  agrees_with_subtrees (is_white_move t)
    (white_win_probability (_update_white_win_probability t))
    (_subtrees t).
Proof.
  unfold _update_white_win_probability, agrees_with_subtrees.
  destruct (_subtrees t) as [|c r] eqn:E; [exact I|].
  destruct (is_white_move t).
  - simpl. apply py_max_from_is_maximum.
  - destruct (sum_count_spec (c :: r) 0%Q 0%Z) as [Hs Hn].
    destruct (sum_count (c :: r) 0 0) as [s n]. cbn [fst] in Hs.
    cbn [snd] in Hn. subst s n. cbn [white_win_probability
                                       set_white_win_probability].
    unfold rounded_mean, rounded_sum. rewrite length_map, Z.add_0_l.
    reflexivity.
Qed.

Lemma update_recomputed (t : GameTree) :
  recomputed (_update_white_win_probability t).
Proof.
  unfold recomputed.
  rewrite update_is_white_move, update_subtrees. apply update_agrees.
Qed.

Lemma update_leaf (t : GameTree) :
  _subtrees t = [] -> _update_white_win_probability t = t.
Proof.
  intros E. unfold _update_white_win_probability. rewrite E. reflexivity.
Qed.

(** ** Lookup and write-back in a list of subtrees *)

Lemma find_subtree_by_move_unfold (t : GameTree) (mv : string) :
  find_subtree_by_move t mv = find (has_move mv) (_subtrees t).
Proof. reflexivity. Qed.

Lemma find_has_move (mv : string) (subs : list GameTree) (c : GameTree) :
  find (has_move mv) subs = Some c -> move c = mv /\ In c subs.
Proof.
  intros H. apply find_some in H. destruct H as [Hin Hm].
  split; [apply String.eqb_eq; exact Hm | exact Hin].
Qed.

Lemma find_none_not_in (mv : string) (subs : list GameTree) :
  find (has_move mv) subs = None -> ~ In mv (map move subs).
Proof.
  intros H Hin. apply in_map_iff in Hin. destruct Hin as [c [Hc Hin]].
  pose proof (find_none _ _ H c Hin) as Hf. unfold has_move in Hf.
  rewrite Hc, String.eqb_refl in Hf. discriminate.
Qed.

Lemma find_snoc_new (mv : string) (subs : list GameTree) (c : GameTree) :
  find (has_move mv) subs = None -> move c = mv ->
  find (has_move mv) (subs ++ [c]) = Some c.
Proof.
  intros Hn Hc. induction subs as [|s r IH]; simpl in *.
  - unfold has_move. rewrite Hc, String.eqb_refl. reflexivity.
  - destruct (has_move mv s); [discriminate | auto].
Qed.

Lemma find_snoc_other (mv : string) (subs : list GameTree) (c x : GameTree) :
  find (has_move mv) subs = Some c ->
  find (has_move mv) (subs ++ [x]) = Some c.
Proof.
  induction subs as [|s r IH]; simpl; [discriminate|].
  destruct (has_move mv s); auto.
Qed.

Lemma find_write_back_same (mv : string) (subs : list GameTree)
  (c x : GameTree) :
  find (has_move mv) subs = Some c -> move x = mv ->
  find (has_move mv) (write_back mv x subs) = Some x.
Proof.
  intros Hf Hx. induction subs as [|s r IH]; simpl in *; [discriminate|].
  unfold has_move in *. destruct (String.eqb (move s) mv) eqn:E; simpl.
  - rewrite Hx, String.eqb_refl. reflexivity.
  - rewrite E. auto.
Qed.

Lemma find_write_back_other (mv mv' : string) (subs : list GameTree)
  (x : GameTree) :
  mv' <> mv -> move x = mv ->
  find (has_move mv') (write_back mv x subs) = find (has_move mv') subs.
Proof.
  intros Hne Hx. induction subs as [|s r IH]; simpl; [reflexivity|].
  destruct (String.eqb (move s) mv) eqn:E; simpl.
  - apply String.eqb_eq in E. unfold has_move.
    rewrite Hx, E. apply String.eqb_neq in Hne.
    rewrite String.eqb_sym, Hne. reflexivity.
  - destruct (has_move mv' s); auto.
Qed.

Lemma write_back_found (mv : string) (subs : list GameTree) (c : GameTree) :
  find (has_move mv) subs = Some c -> write_back mv c subs = subs.
Proof.
  induction subs as [|s r IH]; simpl; [reflexivity|]. unfold has_move in *.
  destruct (String.eqb (move s) mv).
  - intros H. injection H as ->. reflexivity.
  - intros H. rewrite IH by assumption. reflexivity.
Qed.

Lemma write_back_length (mv : string) (x : GameTree) (subs : list GameTree) :
  length (write_back mv x subs) = length subs.
Proof.
  induction subs as [|s r IH]; simpl; [reflexivity|].
  destruct (String.eqb (move s) mv); simpl; auto.
Qed.

Lemma write_back_moves (mv : string) (x : GameTree) (subs : list GameTree) :
  move x = mv -> map move (write_back mv x subs) = map move subs.
Proof.
  intros Hx. induction subs as [|s r IH]; simpl; [reflexivity|].
  destruct (String.eqb (move s) mv) eqn:E; simpl.
  - apply String.eqb_eq in E. congruence.
  - congruence.
Qed.

Lemma write_back_Forall (P : GameTree -> Prop) (mv : string) (x : GameTree)
  (subs : list GameTree) :
  P x -> Forall P subs -> Forall P (write_back mv x subs).
Proof.
  intros Hx H. induction H as [|s r Hs Hr IH]; simpl; [constructor|].
  destruct (String.eqb (move s) mv); constructor; assumption.
Qed.

(** ** One step of an insertion, seen from the root *)

Lemma insert_move (path : list string) (t : GameTree) (q : Q) :
  move (insert_move_sequence t path q) = move t.
Proof.
  destruct path as [|mv rest]; [rewrite insert_move_sequence_nil; auto|].
  rewrite insert_move_sequence_cons.
  destruct (find_subtree_by_move t mv); rewrite update_move; reflexivity.
Qed.

Lemma insert_is_white_move (path : list string) (t : GameTree) (q : Q) :
  is_white_move (insert_move_sequence t path q) = is_white_move t.
Proof.
  destruct path as [|mv rest]; [rewrite insert_move_sequence_nil; auto|].
  rewrite insert_move_sequence_cons.
  destruct (find_subtree_by_move t mv); rewrite update_is_white_move;
    reflexivity.
Qed.

Lemma child_for_move (t : GameTree) (mv : string) (q : Q) :
  move (child_for t mv q) = mv.
Proof.
  unfold child_for. destruct (find_subtree_by_move t mv) eqn:E.
  - apply find_has_move in E. tauto.
  - reflexivity.
Qed.

Lemma insert_subtrees (t : GameTree) (mv : string) (rest : list string)
  (q : Q) :
  _subtrees (insert_move_sequence t (mv :: rest) q) =
  match find_subtree_by_move t mv with
  | None =>
      _subtrees t ++ [insert_move_sequence (child_for t mv q) rest q]
  | Some _ =>
      write_back mv (insert_move_sequence (child_for t mv q) rest q)
                 (_subtrees t)
  end.
Proof.
  rewrite insert_move_sequence_cons. unfold child_for.
  destruct (find_subtree_by_move t mv); rewrite update_subtrees; reflexivity.
Qed.

Lemma insert_find_same (t : GameTree) (mv : string) (rest : list string)
  (q : Q) :
  find_subtree_by_move (insert_move_sequence t (mv :: rest) q) mv =
  Some (insert_move_sequence (child_for t mv q) rest q).
Proof.
  rewrite find_subtree_by_move_unfold, insert_subtrees.
  destruct (find_subtree_by_move t mv) eqn:E.
  - eapply find_write_back_same; [exact E|].
    rewrite insert_move. apply child_for_move.
  - apply find_snoc_new; [exact E|].
    rewrite insert_move. apply child_for_move.
Qed.

Lemma insert_find_other (t : GameTree) (mv mv' : string)
  (rest : list string) (q : Q) (c : GameTree) :
  mv' <> mv ->
  find_subtree_by_move t mv' = Some c ->
  find_subtree_by_move (insert_move_sequence t (mv :: rest) q) mv' = Some c.
Proof.
  intros Hne Hc.
  rewrite find_subtree_by_move_unfold, insert_subtrees.
  destruct (find_subtree_by_move t mv) eqn:E.
  - rewrite find_write_back_other; [exact Hc | exact Hne |].
    rewrite insert_move. apply child_for_move.
  - apply find_snoc_other. exact Hc.
Qed.

Lemma insert_recomputed (t : GameTree) (mv : string) (rest : list string)
  (q : Q) :
  recomputed (insert_move_sequence t (mv :: rest) q) /\
  _subtrees (insert_move_sequence t (mv :: rest) q) <> [].
Proof.
  split.
  - rewrite insert_move_sequence_cons.
    destruct (find_subtree_by_move t mv); apply update_recomputed.
  - intros E.
    pose proof (insert_find_same t mv rest q) as H.
    rewrite find_subtree_by_move_unfold, E in H. discriminate.
Qed.

Lemma insert_recomputes_path (pre : list string) (mv : string)
  (post : list string) (q : Q) (t : GameTree) :
  exists n,
    node_at (insert_move_sequence t (pre ++ mv :: post) q) pre = Some n /\
    _subtrees n <> [] /\ recomputed n.
Proof.
  revert t. induction pre as [|m pre IH]; intros t.
  - exists (insert_move_sequence t (mv :: post) q).
    destruct (insert_recomputed t mv post q). simpl. auto.
  - simpl app. simpl node_at. rewrite insert_find_same. apply IH.
Qed.

Lemma update_single_subtree (t c : GameTree) :
  _subtrees t = [c] -> is_double (white_win_probability c) ->
  (white_win_probability (_update_white_win_probability t) ==
   white_win_probability c)%Q.
Proof.
  intros E Hc. unfold _update_white_win_probability. rewrite E.
  destruct (is_white_move t); [reflexivity|].
  cbn [sum_count white_win_probability set_white_win_probability Z.add].
  unfold is_double in Hc.
  assert (E1 : (fl (0 + white_win_probability c) ==
                white_win_probability c)%Q).
  { rewrite (fl_comp (0 + white_win_probability c) (white_win_probability c))
      by ring. exact Hc. }
  rewrite (fl_comp _ (white_win_probability c)); [exact Hc|].
  rewrite E1. change (inject_Z (0 + 1)) with 1%Q. rewrite fl_one.
  field.
Qed.

(** C1, as the code has it: recomputing the cached estimate keeps the
    node's move, side and subtrees; it leaves a node without subtrees
    unchanged, and otherwise stores the maximum of the subtrees'
    estimates when White is to move and, when Black is to move, their
    mean as float arithmetic gives it: the sum from left to right and
    its quotient by the number of subtrees, each operation rounded to
    the nearest float (so the value of an only subtree, exactly).
    [add_subtree] recomputes the node it extends, and
    [insert_move_sequence] recomputes every node of the path above its
    end. *)
Theorem update_white_win_probability_rule :
  forall self : GameTree,
    let self' := _update_white_win_probability self in
    (move self' = move self /\
     is_white_move self' = is_white_move self /\
     _subtrees self' = _subtrees self) /\
    match _subtrees self with
    | [] => self' = self
    | _ :: _ =>
        if is_white_move self then
          is_maximum (white_win_probability self')
                     (map white_win_probability (_subtrees self))
        else
          (white_win_probability self' ==
           rounded_mean (map white_win_probability (_subtrees self)))%Q
    end /\
    (forall c,
        _subtrees self = [c] -> is_double (white_win_probability c) ->
        (white_win_probability self' == white_win_probability c)%Q) /\
    (forall subtree,
        _subtrees (add_subtree self subtree) = _subtrees self ++ [subtree] /\
        recomputed (add_subtree self subtree)) /\
    (forall pre mv post q, exists n,
        node_at (insert_move_sequence self (pre ++ mv :: post) q) pre
          = Some n /\
        _subtrees n <> [] /\ recomputed n).
Proof.
  intros self self'. subst self'.
  split; [|split; [|split; [|split]]].
  - repeat split;
      [apply update_move | apply update_is_white_move | apply update_subtrees].
  - pose proof (update_agrees self) as H. unfold agrees_with_subtrees in H.
    destruct (_subtrees self) eqn:E; [apply update_leaf; exact E | exact H].
  - intros c E Hc. apply update_single_subtree; assumption.
  - intros subtree. split.
    + unfold add_subtree. rewrite update_subtrees. reflexivity.
    + apply update_recomputed.
  - intros pre mv post q. apply insert_recomputes_path.
Qed.

Lemma update_white_win_probability_rule_witness :
  (white_win_probability
     (_update_white_win_probability
        (mkGameTree "a2b3" false 0 [GameTree_init "d2c3" true tenth])) ==
   tenth)%Q.
Proof.
  destruct (update_white_win_probability_rule
              (mkGameTree "a2b3" false 0 [GameTree_init "d2c3" true tenth]))
    as [_ [_ [H _]]].
  apply (H (GameTree_init "d2c3" true tenth)).
  - reflexivity.
  - vm_compute. reflexivity.
Defined.

(** The claim of C1 as it is worded fails for Black: under a node with
    three subtrees of estimate 0.1 the code stores
    0.10000000000000002, which is not the arithmetic mean 0.1 of the
    three. *)
Lemma float_mean_is_not_the_arithmetic_mean :
  ~ (forall self : GameTree,
       let self' := _update_white_win_probability self in
       match _subtrees self with
       | [] => self' = self
       | _ :: _ =>
           if is_white_move self then
             is_maximum (white_win_probability self')
                        (map white_win_probability (_subtrees self))
           else
             (white_win_probability self' ==
              arithmetic_mean
                (map white_win_probability (_subtrees self)))%Q
       end).
Proof.
  intros H. specialize (H three_tenths).
  vm_compute in H. discriminate.
Qed.

(** ** Paths survive later insertions *)

Lemma node_at_prefix (pre post : list string) (t n : GameTree) :
  node_at t (pre ++ post) = Some n -> exists n', node_at t pre = Some n'.
Proof.
  revert t. induction pre as [|m pre IH]; intros t H; simpl in *.
  - eauto.
  - destruct (find_subtree_by_move t m); [eauto | discriminate].
Qed.

Lemma insert_reaches_end (path : list string) (t : GameTree) (q : Q) :
  exists n, node_at (insert_move_sequence t path q) path = Some n.
Proof.
  revert t. induction path as [|m rest IH]; intros t.
  - rewrite insert_move_sequence_nil. simpl. eauto.
  - simpl node_at. rewrite insert_find_same. apply IH.
Qed.

Lemma insert_keeps_paths (path : list string) :
  forall (t n : GameTree) (moves : list string) (q : Q),
    node_at t path = Some n ->
    exists n', node_at (insert_move_sequence t moves q) path = Some n'.
Proof.
  induction path as [|m rest IH]; intros t n moves q H.
  - simpl. eauto.
  - simpl in H. destruct (find_subtree_by_move t m) as [c|] eqn:E;
      [|discriminate].
    destruct moves as [|m2 rest2].
    + rewrite insert_move_sequence_nil. simpl. rewrite E. eauto.
    + simpl. destruct (String.eqb_spec m m2) as [->|Hne].
      * rewrite insert_find_same. unfold child_for. rewrite E.
        eapply IH; eassumption.
      * rewrite (insert_find_other t m2 m rest2 q c Hne E). eauto.
Qed.

Lemma insert_all_keeps_paths (calls : list (list string * Q)) :
  forall (t n : GameTree) (path : list string),
    node_at t path = Some n ->
    exists n', node_at (insert_all t calls) path = Some n'.
Proof.
  induction calls as [|[moves q] calls IH]; intros t n path H.
  - simpl. eauto.
  - unfold insert_all in *. simpl.
    destruct (insert_keeps_paths path t n moves q H) as [n1 H1].
    eapply IH; eassumption.
Qed.

(** C3: after any series of insertions into a tree, every inserted path
    is found step by step with [find_subtree_by_move]: the lookup along
    each of its prefixes ends on a node. *)
Theorem inserted_paths_are_found :
  forall (t : GameTree) (calls : list (list string * Q))
         (path : list string) (q : Q) (pre post : list string),
    In (path, q) calls ->
    path = pre ++ post ->
    exists n, node_at (insert_all t calls) pre = Some n.
Proof.
  intros t calls path q pre post Hin ->. revert t.
  induction calls as [|[moves p] calls IH]; intros t; [destruct Hin|].
  destruct Hin as [Heq|Hin].
  - injection Heq as -> ->.
    destruct (insert_reaches_end (pre ++ post) t q) as [n Hn].
    destruct (insert_all_keeps_paths calls _ _ _ Hn) as [n' Hn'].
    eapply node_at_prefix. exact Hn'.
  - apply (IH Hin).
Qed.

Lemma inserted_paths_are_found_witness :
  exists n,
    node_at (insert_all GameTree_default
               [(["a2b3"; "d2c3"]%string, 1%Q); (["b2c3"]%string, 0%Q)])
            ["a2b3"; "d2c3"]%string = Some n.
Proof.
  apply (inserted_paths_are_found GameTree_default
           [(["a2b3"; "d2c3"]%string, 1%Q); (["b2c3"]%string, 0%Q)]
           ["a2b3"; "d2c3"]%string 1%Q ["a2b3"; "d2c3"]%string []).
  - simpl. left. reflexivity.
  - reflexivity.
Defined.

(** ** Inserting a path again *)

Lemma update_idempotent (t : GameTree) :
  _update_white_win_probability (_update_white_win_probability t) =
  _update_white_win_probability t.
Proof.
  destruct t as [mv white p subs]. unfold _update_white_win_probability.
  cbn [_subtrees is_white_move]. destruct subs as [|c r]; [reflexivity|].
  destruct white.
  - reflexivity.
  - destruct (sum_count (c :: r) 0 0) as [s n] eqn:E.
    cbn [set_white_win_probability _subtrees is_white_move move].
    rewrite E. reflexivity.
Qed.

Lemma set_subtrees_same (t : GameTree) : set_subtrees t (_subtrees t) = t.
Proof. destruct t; reflexivity. Qed.

Lemma insert_is_update (t : GameTree) (mv : string) (rest : list string)
  (q : Q) :
  exists x, insert_move_sequence t (mv :: rest) q =
            _update_white_win_probability x.
Proof.
  rewrite insert_move_sequence_cons.
  destruct (find_subtree_by_move t mv); eauto.
Qed.

Lemma insert_prefix_idempotent (pre : list string) :
  forall (t : GameTree) (post : list string) (q q' : Q),
    insert_move_sequence (insert_move_sequence t (pre ++ post) q) pre q' =
    insert_move_sequence t (pre ++ post) q.
Proof.
  induction pre as [|mv rest IH]; intros t post q q'.
  - apply insert_move_sequence_nil.
  - simpl app.
    pose proof (insert_find_same t mv (rest ++ post) q) as Hfind.
    rewrite (insert_move_sequence_cons
               (insert_move_sequence t (mv :: rest ++ post) q)).
    rewrite Hfind, IH.
    rewrite find_subtree_by_move_unfold in Hfind.
    rewrite (write_back_found _ _ _ Hfind), set_subtrees_same.
    destruct (insert_is_update t mv (rest ++ post) q) as [x ->].
    apply update_idempotent.
Qed.

Lemma insert_idempotent (path : list string) (t : GameTree) (q q' : Q) :
  insert_move_sequence (insert_move_sequence t path q) path q' =
  insert_move_sequence t path q.
Proof.
  pose proof (insert_prefix_idempotent path t [] q q') as H.
  rewrite app_nil_r in H. exact H.
Qed.

Lemma NoDup_snoc {A : Type} (l : list A) (x : A) :
  NoDup l -> ~ In x l -> NoDup (l ++ [x]).
Proof.
  intros Hl Hx. induction Hl as [|a l Ha Hl IH]; simpl.
  - constructor; [intros [] | constructor].
  - constructor.
    + intros Hin. apply in_app_or in Hin. destruct Hin as [Hin|[->|[]]].
      * contradiction.
      * apply Hx. left. reflexivity.
    + apply IH. intros Hin. apply Hx. right. exact Hin.
Qed.

Lemma insert_root_distinct (t : GameTree) (path : list string) (q : Q) :
  NoDup (map move (_subtrees t)) ->
  NoDup (map move (_subtrees (insert_move_sequence t path q))).
Proof.
  intros H. destruct path as [|mv rest].
  - rewrite insert_move_sequence_nil. exact H.
  - rewrite insert_subtrees.
    destruct (find_subtree_by_move t mv) eqn:E.
    + rewrite write_back_moves; [exact H|].
      rewrite insert_move. apply child_for_move.
    + rewrite map_app. simpl. rewrite insert_move, child_for_move.
      apply NoDup_snoc; [exact H|]. apply find_none_not_in. exact E.
Qed.

Lemma insert_path_distinct (pre : list string) :
  forall (t : GameTree) (post : list string) (q : Q) (n' : GameTree),
    match node_at t pre with
    | Some n => NoDup (map move (_subtrees n))
    | None => True
    end ->
    node_at (insert_move_sequence t (pre ++ post) q) pre = Some n' ->
    NoDup (map move (_subtrees n')).
Proof.
  induction pre as [|m pre IH]; intros t post q n' H Hn'.
  - simpl in *. injection Hn' as <-. apply insert_root_distinct. exact H.
  - simpl app in Hn'. simpl node_at in Hn'. rewrite insert_find_same in Hn'.
    apply (IH (child_for t m q) post q n'); [|exact Hn'].
    simpl in H. unfold child_for.
    destruct (find_subtree_by_move t m) eqn:E; [exact H|].
    destruct pre; simpl; constructor.
Qed.

Lemma insert_distinct_moves (path : list string) :
  forall (t : GameTree) (q : Q),
    distinct_moves t -> distinct_moves (insert_move_sequence t path q).
Proof.
  induction path as [|mv rest IH]; intros t q H.
  - rewrite insert_move_sequence_nil. exact H.
  - constructor; [apply insert_root_distinct; inversion H; assumption|].
    inversion H as [t' Hnd Hall]; subst t'.
    assert (Hc : distinct_moves (child_for t mv q)).
    { unfold child_for. destruct (find_subtree_by_move t mv) eqn:E.
      - apply find_has_move in E. destruct E as [_ Hin].
        rewrite Forall_forall in Hall. apply Hall. exact Hin.
      - constructor; simpl; constructor. }
    rewrite insert_subtrees.
    destruct (find_subtree_by_move t mv).
    + apply write_back_Forall; [apply IH; exact Hc | exact Hall].
    + apply Forall_app. split; [exact Hall|].
      constructor; [apply IH; exact Hc | constructor].
Qed.

(** C2: inserting a path, or a prefix of it, a second time changes
    nothing, so every node along the path has as many subtrees as after
    the first insertion; and
    an insertion keeps the moves of the subtrees pairwise distinct, at
    every node of the path (which either had distinct subtrees or did not
    exist before) and in the whole tree. *)
Theorem reinsertion_adds_no_sibling :
  forall (t : GameTree) (path : list string) (q q' : Q),
    (forall pre post, path = pre ++ post ->
       insert_move_sequence (insert_move_sequence t path q) pre q' =
       insert_move_sequence t path q) /\
    (forall pre post, path = pre ++ post ->
       exists n1 n2,
         node_at (insert_move_sequence t path q) pre = Some n1 /\
         node_at (insert_move_sequence (insert_move_sequence t path q)
                                       path q') pre = Some n2 /\
         length (_subtrees n2) = length (_subtrees n1)) /\
    (forall pre post n', path = pre ++ post ->
       match node_at t pre with
       | Some n => NoDup (map move (_subtrees n))
       | None => True
       end ->
       node_at (insert_move_sequence t path q) pre = Some n' ->
       NoDup (map move (_subtrees n'))) /\
    (distinct_moves t ->
       distinct_moves (insert_move_sequence t path q) /\
       distinct_moves (insert_move_sequence (insert_move_sequence t path q)
                                            path q')).
Proof.
  intros t path q q'. split; [|split; [|split]].
  - intros pre post ->. apply insert_prefix_idempotent.
  - intros pre post ->. rewrite insert_idempotent.
    destruct (insert_reaches_end (pre ++ post) t q) as [n Hn].
    destruct (node_at_prefix _ _ _ _ Hn) as [n1 Hn1].
    exists n1, n1. auto.
  - intros pre post n' -> H Hn'. eapply insert_path_distinct; eassumption.
  - intros H. rewrite insert_idempotent.
    split; apply insert_distinct_moves; exact H.
Qed.

(** ** The end of a path that is inserted again *)

Lemma insert_keeps_end (path : list string) :
  forall (t n : GameTree) (q : Q),
    node_at t path = Some n ->
    node_at (insert_move_sequence t path q) path = Some n.
Proof.
  induction path as [|mv rest IH]; intros t n q H.
  - rewrite insert_move_sequence_nil. exact H.
  - simpl in *. rewrite insert_find_same. unfold child_for.
    destruct (find_subtree_by_move t mv); [|discriminate].
    apply IH. exact H.
Qed.

Lemma insert_creates_end (path : list string) :
  forall (t : GameTree) (q : Q),
    node_at t path = None ->
    exists n',
      node_at (insert_move_sequence t path q) path = Some n' /\
      white_win_probability n' = q /\ _subtrees n' = [].
Proof.
  induction path as [|mv rest IH]; intros t q H; [discriminate|].
  simpl in *. rewrite insert_find_same. unfold child_for.
  destruct (find_subtree_by_move t mv) as [c|]; [apply IH; exact H|].
  destruct rest as [|m2 rest].
  - rewrite insert_move_sequence_nil. simpl. eauto.
  - apply IH. reflexivity.
Qed.

Ltac distinct_siblings :=
  repeat (cbn [map _subtrees move];
          match goal with
          | |- distinct_moves _ => apply distinct_moves_node
          | |- Forall _ _ => constructor
          | |- NoDup _ => constructor
          | |- ~ In _ _ => simpl; intuition discriminate
          end).

Lemma reinsertion_adds_no_sibling_witness :
  (exists n1 n2,
     node_at (insert_move_sequence build_sample_game_tree
                ["c2d3"; "d4d3"; "a1a2"]%string 1%Q)
             ["c2d3"; "d4d3"]%string = Some n1 /\
     node_at (insert_move_sequence
                (insert_move_sequence build_sample_game_tree
                   ["c2d3"; "d4d3"; "a1a2"]%string 1%Q)
                ["c2d3"; "d4d3"; "a1a2"]%string 0%Q)
             ["c2d3"; "d4d3"]%string = Some n2 /\
     length (_subtrees n2) = length (_subtrees n1)) /\
  (forall n',
     node_at (insert_move_sequence build_sample_game_tree
                ["c2d3"; "d4d3"; "a1a2"]%string 1%Q)
             ["c2d3"; "d4d3"]%string = Some n' ->
     NoDup (map move (_subtrees n'))) /\
  distinct_moves (insert_move_sequence build_sample_game_tree
                    ["c2d3"; "d4d3"; "a1a2"]%string 1%Q).
Proof.
  destruct (reinsertion_adds_no_sibling build_sample_game_tree
              ["c2d3"; "d4d3"; "a1a2"]%string 1%Q 0%Q)
    as [_ [H1 [H2 H3]]].
  split; [|split].
  - apply (H1 ["c2d3"; "d4d3"]%string ["a1a2"]%string). reflexivity.
  - intros n'.
    apply (H2 ["c2d3"; "d4d3"]%string ["a1a2"]%string n').
    + reflexivity.
    + vm_compute. distinct_siblings.
  - apply H3. vm_compute. distinct_siblings.
Defined.

(** C4, as the code has it: when the whole path is already in the tree,
    inserting it again leaves the node at its end as it was, whatever the
    outcome given; the outcome is stored only in a node that the
    insertion creates at the end of a path that was not there. *)
Theorem reinsertion_keeps_end_node :
  forall (t : GameTree) (path : list string) (q : Q),
    (forall n, node_at t path = Some n ->
               node_at (insert_move_sequence t path q) path = Some n) /\
    (node_at t path = None ->
       exists n',
         node_at (insert_move_sequence t path q) path = Some n' /\
         white_win_probability n' = q /\ _subtrees n' = []).
Proof.
  intros t path q. split.
  - intros n H. apply insert_keeps_end. exact H.
  - apply insert_creates_end.
Qed.

Lemma reinsertion_keeps_end_node_witness :
  node_at (insert_move_sequence build_sample_game_tree
             ["c2d3"; "d4d3"]%string 1%Q) ["c2d3"; "d4d3"]%string =
  node_at build_sample_game_tree ["c2d3"; "d4d3"]%string /\
  exists n',
    node_at (insert_move_sequence build_sample_game_tree
               ["a2b3"; "d2c3"]%string 1%Q) ["a2b3"; "d2c3"]%string
      = Some n' /\
    white_win_probability n' = 1%Q /\ _subtrees n' = [].
Proof.
  split.
  - destruct (node_at build_sample_game_tree ["c2d3"; "d4d3"]%string)
      as [n|] eqn:E; [|vm_compute in E; discriminate].
    apply (reinsertion_keeps_end_node build_sample_game_tree
             ["c2d3"; "d4d3"]%string 1%Q).
    exact E.
  - apply (reinsertion_keeps_end_node build_sample_game_tree
             ["a2b3"; "d2c3"]%string 1%Q).
    reflexivity.
Defined.

(** The claim of C4 as it is worded fails: the path [a2b3] is in the
    sample tree with estimate 0; inserting it again with outcome 1 leaves
    the estimate of its end at 0. *)
Lemma reinsertion_does_not_overwrite :
  ~ (forall (t : GameTree) (path : list string) (q : Q) (n : GameTree),
       path <> [] ->
       node_at t path = Some n ->
       exists n',
         node_at (insert_move_sequence t path q) path = Some n' /\
         (white_win_probability n' == q)%Q).
Proof.
  intros H.
  destruct (H build_sample_game_tree ["a2b3"%string] 1%Q
              (GameTree_init "a2b3" false 0%Q))
    as [n' [Hn' Hq]].
  - discriminate.
  - reflexivity.
  - vm_compute in Hn'. injection Hn' as <-. vm_compute in Hq. discriminate.
Qed.

(** ** Probabilities stay in the unit interval *)

Lemma probabilities_ok_root (t : GameTree) :
  probabilities_ok t -> in_unit_interval (white_win_probability t).
Proof. intros H. inversion H. split; assumption. Qed.

Lemma sum_count_bounds (subs : list GameTree) :
  forall (s : Q) (n : Z),
    Forall probabilities_ok subs ->
    (0 <= n)%Z ->
    (0 <= s)%Q -> (s <= inject_Z n)%Q -> (s <= inject_Z (2 ^ 53))%Q ->
    (0 <= fst (sum_count subs s n))%Q /\
    (fst (sum_count subs s n) <= inject_Z (snd (sum_count subs s n)))%Q /\
    (fst (sum_count subs s n) <= inject_Z (2 ^ 53))%Q.
Proof.
  induction subs as [|c r IH]; intros s n Hall Hn H0 H1 H2;
    cbn [sum_count fst snd].
  - auto.
  - inversion Hall as [|c' r' Hc Hr]; subst.
    destruct (probabilities_ok_root c Hc) as [Hc0 Hc1].
    set (p := white_win_probability c) in *.
    assert (Hsum : (0 <= s + p)%Q) by lra.
    assert (Hbig : (fl (s + p) <= inject_Z (2 ^ 53))%Q).
    { rewrite <- fl_saturates. apply fl_mono; [exact Hsum | lra]. }
    apply IH; [exact Hr | lia | apply fl_nonneg; exact Hsum | | exact Hbig].
    destruct (Z_le_gt_dec (n + 1) (2 ^ 53)) as [Hle|Hgt].
    + rewrite <- (fl_integer (n + 1)) by lia.
      apply fl_mono; [exact Hsum|]. rewrite inject_Z_plus.
      change (inject_Z 1) with 1%Q. lra.
    + eapply Qle_trans; [exact Hbig|]. rewrite <- Zle_Qle. lia.
Qed.

Lemma rounded_quotient_in_unit_interval (s : Q) (n : Z) :
  (1 <= n)%Z -> (0 <= s)%Q -> (s <= inject_Z n)%Q ->
  (s <= inject_Z (2 ^ 53))%Q ->
  in_unit_interval (fl (s / fl (inject_Z n))).
Proof.
  intros Hn H0 H1 H2.
  assert (Hn1 : (1 <= inject_Z n)%Q)
    by (change 1%Q with (inject_Z 1); rewrite <- Zle_Qle; exact Hn).
  assert (Hf1 : (1 <= fl (inject_Z n))%Q).
  { rewrite <- fl_one. apply fl_mono; [lra | exact Hn1]. }
  assert (Hfs : (s <= fl (inject_Z n))%Q).
  { destruct (Z_le_gt_dec n (2 ^ 53)) as [Hle|Hgt].
    - rewrite fl_integer by lia. exact H1.
    - eapply Qle_trans; [exact H2|].
      rewrite <- (fl_integer (2 ^ 53)) by lia.
      apply fl_mono;
        [change 0%Q with (inject_Z 0); rewrite <- Zle_Qle; lia
        | rewrite <- Zle_Qle; lia]. }
  assert (Hpos : (0 < fl (inject_Z n))%Q) by lra.
  assert (Hq0 : (0 <= s / fl (inject_Z n))%Q)
    by (apply Qle_shift_div_l; [exact Hpos | lra]).
  assert (Hq1 : (s / fl (inject_Z n) <= 1)%Q)
    by (apply Qle_shift_div_r; [exact Hpos | lra]).
  split.
  - apply fl_nonneg. exact Hq0.
  - rewrite <- fl_one. apply fl_mono; assumption.
Qed.

Lemma update_probabilities_ok (t : GameTree) :
  in_unit_interval (white_win_probability t) ->
  Forall probabilities_ok (_subtrees t) ->
  probabilities_ok (_update_white_win_probability t).
Proof.
  intros [H0 H1] Hall.
  assert (Hp : in_unit_interval
                 (white_win_probability (_update_white_win_probability t))).
  { unfold _update_white_win_probability.
    destruct (_subtrees t) as [|c r] eqn:E; [split; assumption|].
    destruct (is_white_move t).
    - cbn [white_win_probability set_white_win_probability].
      destruct (py_max_from_is_maximum (white_win_probability c)
                  (map white_win_probability r)) as [Hin _].
      change (In (py_max_from (white_win_probability c)
                    (map white_win_probability r))
                 (map white_win_probability (c :: r))) in Hin.
      apply in_map_iff in Hin. destruct Hin as [x [<- Hx]].
      rewrite Forall_forall in Hall.
      apply probabilities_ok_root, Hall, Hx.
    - destruct (sum_count_bounds (c :: r) 0%Q 0%Z Hall)
        as [Hs0 [Hs1 Hs2]];
        [lia | apply Qle_refl | apply Qle_refl
         | change 0%Q with (inject_Z 0); rewrite <- Zle_Qle; lia |].
      destruct (sum_count_spec (c :: r) 0%Q 0%Z) as [_ Hn].
      destruct (sum_count (c :: r) 0 0) as [s n].
      cbn [fst snd] in *.
      cbn [white_win_probability set_white_win_probability].
      apply rounded_quotient_in_unit_interval; try assumption.
      rewrite Hn. simpl length. lia. }
  destruct Hp as [Hp0 Hp1].
  constructor; [exact Hp0 | exact Hp1 |].
  rewrite update_subtrees. exact Hall.
Qed.

Lemma init_probabilities_ok (mv : string) (white : bool) (p : Q) :
  in_unit_interval p -> probabilities_ok (GameTree_init mv white p).
Proof. intros [H0 H1]. constructor; simpl; auto. Qed.

Lemma add_subtree_probabilities_ok (t s : GameTree) :
  probabilities_ok t -> probabilities_ok s ->
  probabilities_ok (add_subtree t s).
Proof.
  intros Ht Hs. unfold add_subtree. inversion Ht as [t' H0 H1 Hall]; subst.
  apply update_probabilities_ok; simpl.
  - split; assumption.
  - apply Forall_app. split; [exact Hall | constructor; [exact Hs | constructor]].
Qed.

Lemma insert_probabilities_ok (path : list string) :
  forall (t : GameTree) (q : Q),
    in_unit_interval q -> probabilities_ok t ->
    probabilities_ok (insert_move_sequence t path q).
Proof.
  induction path as [|mv rest IH]; intros t q Hq Ht.
  - rewrite insert_move_sequence_nil. exact Ht.
  - inversion Ht as [t' H0 H1 Hall]; subst.
    assert (Hc : probabilities_ok
                   (insert_move_sequence (child_for t mv q) rest q)).
    { apply IH; [exact Hq|]. unfold child_for.
      destruct (find_subtree_by_move t mv) eqn:E.
      - apply find_has_move in E. destruct E as [_ Hin].
        rewrite Forall_forall in Hall. apply Hall, Hin.
      - apply init_probabilities_ok, Hq. }
    rewrite insert_move_sequence_cons. unfold child_for in Hc.
    destruct (find_subtree_by_move t mv);
      apply update_probabilities_ok; simpl; try (split; assumption).
    + apply write_back_Forall; assumption.
    + apply Forall_app. split; [exact Hall | constructor; [exact Hc | constructor]].
Qed.

(** C5: in a tree obtained with the public operations (construction,
    [add_subtree], [insert_move_sequence]) from probabilities in the
    unit interval, the estimate of every node is in the unit interval. *)
Theorem built_probabilities_in_unit_interval :
  forall t : GameTree, built t -> probabilities_ok t.
Proof.
  intros t H. induction H as [mv white p H0 H1 | t s _ IHt _ IHs
                             | t moves p _ IHt H0 H1].
  - apply init_probabilities_ok. split; assumption.
  - apply add_subtree_probabilities_ok; assumption.
  - apply insert_probabilities_ok; [split|]; assumption.
Qed.

Ltac unit_interval := unfold Qle; simpl; lia.

Lemma built_probabilities_in_unit_interval_witness :
  probabilities_ok
    (insert_move_sequence build_sample_game_tree
       ["a2b3"; "d2c3"]%string 1%Q).
Proof.
  apply built_probabilities_in_unit_interval.
  apply built_insert; [| unit_interval | unit_interval].
  unfold build_sample_game_tree. cbv zeta.
  repeat (apply built_add_subtree || (apply built_init; unit_interval)).
Defined.

(** ** The complete game tree *)

Section complete_tree.
Context {G : Type} `{minichess.MinichessGame G}.

Lemma add_all_subtrees (f : string -> GameTree) (l : list string) :
  forall t0,
    _subtrees (fold_left (fun tree mv => add_subtree tree (f mv)) l t0) =
    _subtrees t0 ++ map f l.
Proof.
  induction l as [|x r IH]; intros t0; simpl.
  - rewrite app_nil_r. reflexivity.
  - rewrite IH. unfold add_subtree. rewrite update_subtrees. simpl.
    rewrite <- app_assoc. reflexivity.
Qed.

Lemma add_all_root (f : string -> GameTree) (l : list string) :
  forall t0,
    move (fold_left (fun tree mv => add_subtree tree (f mv)) l t0) = move t0.
Proof.
  induction l as [|x r IH]; intros t0; simpl; [reflexivity|].
  rewrite IH. unfold add_subtree. rewrite update_move. reflexivity.
Qed.

Lemma generate_move (root_move : string) (g : G) (d : nat) :
  move (generate_complete_game_tree root_move g d) = root_move.
Proof.
  destruct d; simpl; destruct (winner_is_white g); try reflexivity;
    rewrite add_all_root; reflexivity.
Qed.

Lemma generate_depth_0 (root_move : string) (g : G) :
  generate_complete_game_tree root_move g 0 =
  GameTree_init root_move (minichess.is_white_move g)
    (if winner_is_white g then 1%Q else 0%Q).
Proof. simpl. destruct (winner_is_white g); reflexivity. Qed.

Lemma winner_is_white_true (g : G) :
  winner_is_white g = true <-> minichess.get_winner g = Some "White"%string.
Proof.
  unfold winner_is_white. destruct (minichess.get_winner g) as [w|].
  - rewrite String.eqb_eq. split; [intros ->; reflexivity | congruence].
  - split; discriminate.
Qed.

Lemma generate_depth_0_white (root_move : string) (g : G) :
  minichess.get_winner g = Some "White"%string ->
  generate_complete_game_tree root_move g 0 =
  mkGameTree root_move (minichess.is_white_move g) 1%Q [].
Proof.
  intros Hw. apply winner_is_white_true in Hw.
  rewrite generate_depth_0, Hw. reflexivity.
Qed.

Lemma generate_depth_0_other (root_move : string) (g : G) :
  minichess.get_winner g <> Some "White"%string ->
  generate_complete_game_tree root_move g 0 =
  mkGameTree root_move (minichess.is_white_move g) 0%Q [].
Proof.
  intros Hw. rewrite generate_depth_0.
  destruct (winner_is_white g) eqn:E; [|reflexivity].
  apply winner_is_white_true in E. contradiction.
Qed.

Lemma generate_subtrees (root_move : string) (g : G) (d : nat) :
  _subtrees (generate_complete_game_tree root_move g (S d)) =
  map (fun mv =>
         generate_complete_game_tree mv (minichess.copy_and_make_move g mv) d)
      (minichess.get_valid_moves g).
Proof.
  simpl. destruct (winner_is_white g); rewrite add_all_subtrees; reflexivity.
Qed.

Lemma generate_reaches (d : nat) :
  forall (root_move : string) (g : G) (k : nat) (g' : G) (n : GameTree),
    reaches g (generate_complete_game_tree root_move g d) k g' n ->
    k <= d /\
    (_subtrees n = [] -> k = d \/ minichess.get_valid_moves g' = []).
Proof.
  induction d as [|d IH]; intros root_move g k g' n Hr.
  - inversion Hr as [|g0 t0 c k' g0' n0 Hin Hr']; subst.
    + split; [lia | auto].
    + rewrite generate_depth_0 in Hin. destruct Hin.
  - inversion Hr as [|g0 t0 c k' g0' n0 Hin Hr']; subst.
    + split; [lia|]. intros E. right.
      rewrite generate_subtrees in E. apply map_eq_nil in E. exact E.
    + rewrite generate_subtrees in Hin. apply in_map_iff in Hin.
      destruct Hin as [mv [<- Hmv]]. rewrite generate_move in Hr'.
      destruct (IH _ _ _ _ _ Hr') as [Hk Hleaf].
      split; [lia|]. intros E. destruct (Hleaf E); [left; lia | right; auto].
Qed.

End complete_tree.

(** C6: in the tree of [generate_complete_game_tree root_move game_state d]
    no node lies more than [d] edges below the root, and a node without
    subtrees lies exactly [d] edges below the root or belongs to a state
    without valid moves; for [d = 0] the tree is a single node, created
    with probability 1 when [get_winner] of the state is ['White'] and
    with the default 0 when it is anything else. *)
Theorem complete_game_tree_depth :
  forall (G : Type) (rules : minichess.MinichessGame G)
         (root_move : string) (game_state : G) (d : nat),
    (forall k g' n,
        reaches game_state
                (generate_complete_game_tree root_move game_state d) k g' n ->
        k <= d /\
        (_subtrees n = [] ->
         k = d \/ minichess.get_valid_moves g' = [])) /\
    (minichess.get_winner game_state = Some "White"%string ->
     generate_complete_game_tree root_move game_state 0 =
       mkGameTree root_move (minichess.is_white_move game_state) 1%Q []) /\
    (minichess.get_winner game_state <> Some "White"%string ->
     generate_complete_game_tree root_move game_state 0 =
       mkGameTree root_move (minichess.is_white_move game_state) 0%Q []).
Proof.
  intros G rules root_move game_state d. split; [|split].
  - intros k g' n Hr. eapply generate_reaches. exact Hr.
  - apply generate_depth_0_white.
  - apply generate_depth_0_other.
Qed.

Lemma complete_game_tree_depth_witness :
  (1 <= 3 /\
   (_subtrees (generate_complete_game_tree "a1a2" (countdown 0) 2) = [] ->
    1 = 3 \/ minichess.get_valid_moves (countdown 0) = [])) /\
  generate_complete_game_tree "*" (countdown 0) 0 =
    mkGameTree "*" true 1%Q [] /\
  generate_complete_game_tree "*" (countdown 1) 0 =
    mkGameTree "*" false 0%Q [].
Proof.
  destruct (complete_game_tree_depth Countdown Countdown_game "*"%string
              (countdown 1) 3) as [Hdepth [_ Hother]].
  destruct (complete_game_tree_depth Countdown Countdown_game "*"%string
              (countdown 0) 0) as [_ [Hwhite _]].
  split; [|split].
  - apply Hdepth.
    apply reaches_subtree
      with (c := generate_complete_game_tree "a1a2" (countdown 0) 2).
    + vm_compute. left. reflexivity.
    + apply reaches_root.
  - apply Hwhite. reflexivity.
  - apply Hother. discriminate.
Defined.

(** ** random.choice *)

Lemma random_choice_nonempty {A : Type} (seq : list A) (r : Rng) :
  seq <> [] ->
  exists x,
    nth_error seq (N.to_nat (next_draw r mod N.of_nat (length seq)))
      = Some x /\
    In x seq /\
    random_choice seq r = (Some x, advance r).
Proof.
  intros Hne. destruct seq as [|a l]; [contradiction|].
  set (i := N.to_nat (next_draw r mod N.of_nat (length (a :: l)))).
  assert (Hi : i < length (a :: l)).
  { subst i.
    assert (Hlt : (next_draw r mod N.of_nat (length (a :: l))
                   < N.of_nat (length (a :: l)))%N)
      by (apply N.mod_lt; simpl; lia).
    lia. }
  destruct (nth_error (a :: l) i) as [x|] eqn:E.
  - exists x. split; [reflexivity|]. split.
    + eapply nth_error_In. exact E.
    + unfold random_choice. fold i. rewrite E. reflexivity.
  - apply nth_error_None in E. lia.
Qed.

Lemma random_choice_each_position {A : Type} (seq : list A) (r : Rng)
  (i : nat) :
  i < length seq -> next_draw r = N.of_nat i ->
  random_choice seq r = (nth_error seq i, advance r).
Proof.
  intros Hi Hd. destruct seq as [|a l]; [simpl in Hi; lia|].
  unfold random_choice. rewrite Hd.
  rewrite N.mod_small by lia. rewrite Nat2N.id. reflexivity.
Qed.

(** ** The greedy scans *)

Lemma scan_highest_app (l1 l2 : list GameTree) :
  forall prob hp,
    scan_highest (l1 ++ l2) prob hp =
    scan_highest l2 (fst (scan_highest l1 prob hp))
                    (snd (scan_highest l1 prob hp)).
Proof.
  induction l1 as [|x r IH]; intros prob hp; simpl; [reflexivity|].
  destruct (Qlt_bool prob (white_win_probability x)); apply IH.
Qed.

Lemma scan_highest_bounded (l : list GameTree) (b : Q) :
  forall prob hp,
    (prob <= b)%Q ->
    Forall (fun s => (white_win_probability s <= b)%Q) l ->
    (fst (scan_highest l prob hp) <= b)%Q.
Proof.
  induction l as [|x r IH]; intros prob hp Hp Hall; simpl; [exact Hp|].
  inversion Hall; subst.
  destruct (Qlt_bool prob (white_win_probability x)); apply IH; assumption.
Qed.

Lemma scan_highest_no_better (l : list GameTree) :
  forall prob hp,
    Forall (fun s => (white_win_probability s <= prob)%Q) l ->
    scan_highest l prob hp = (prob, hp).
Proof.
  induction l as [|x r IH]; intros prob hp Hall; simpl; [reflexivity|].
  inversion Hall as [|x' r' Hx Hr]; subst.
  apply Qlt_bool_false in Hx. rewrite Hx. apply IH. exact Hr.
Qed.

Lemma scan_highest_spec (l : list GameTree) :
  forall prob hp,
    (Forall (fun s => (white_win_probability s <= prob)%Q) l /\
     scan_highest l prob hp = (prob, hp)) \/
    (exists c,
        scan_highest l prob hp = (white_win_probability c, Some c) /\
        (prob < white_win_probability c)%Q /\ first_maximum c l).
Proof.
  induction l as [|x r IH]; intros prob hp; simpl.
  - left. split; [constructor | reflexivity].
  - destruct (Qlt_bool prob (white_win_probability x)) eqn:E.
    + apply Qlt_bool_iff in E. right.
      destruct (IH (white_win_probability x) (Some x))
        as [[Hall Heq] | [c [Heq [Hlt [before [after [-> [Hb Ha]]]]]]]].
      * exists x. split; [exact Heq|]. split; [exact E|].
        exists [], r. split; [reflexivity|].
        split; [intros s []|]. rewrite Forall_forall in Hall. exact Hall.
      * exists c. split; [exact Heq|].
        split; [eapply Qlt_trans; eassumption|].
        exists (x :: before), after. split; [reflexivity|].
        split; [|exact Ha]. intros s [<-|Hs]; [exact Hlt | auto].
    + apply Qlt_bool_false in E.
      destruct (IH prob hp)
        as [[Hall Heq] | [c [Heq [Hlt [before [after [-> [Hb Ha]]]]]]]].
      * left. split; [constructor; assumption | exact Heq].
      * right. exists c. split; [exact Heq|]. split; [exact Hlt|].
        exists (x :: before), after. split; [reflexivity|].
        split; [|exact Ha]. intros s [<-|Hs]; [|auto].
        eapply Qle_lt_trans; eassumption.
Qed.

Lemma scan_highest_finds (l : list GameTree) (prob : Q) :
  Exists (fun s => (prob < white_win_probability s)%Q) l ->
  exists c, snd (scan_highest l prob None) = Some c /\ first_maximum c l.
Proof.
  intros Hex.
  destruct (scan_highest_spec l prob None) as [[Hall _] | [c [Heq [_ Hc]]]].
  - exfalso. apply Exists_exists in Hex. destruct Hex as [s [Hin Hs]].
    rewrite Forall_forall in Hall. specialize (Hall s Hin).
    apply (Qlt_irrefl prob). eapply Qlt_le_trans; eassumption.
  - exists c. rewrite Heq. auto.
Qed.

Lemma scan_highest_strict_maximum (before after : list GameTree)
  (c : GameTree) (b : Q) :
  (0 <= b)%Q -> (b < white_win_probability c)%Q ->
  Forall (fun s => (white_win_probability s <= b)%Q) (before ++ after) ->
  snd (scan_highest (before ++ c :: after) 0%Q None) = Some c.
Proof.
  intros H0 Hc Hall. apply Forall_app in Hall. destruct Hall as [Hb Ha].
  rewrite scan_highest_app. simpl.
  pose proof (scan_highest_bounded before b 0%Q None H0 Hb) as Hle.
  assert (Hlt : Qlt_bool (fst (scan_highest before 0%Q None))
                         (white_win_probability c) = true).
  { apply Qlt_bool_iff. eapply Qle_lt_trans; eassumption. }
  rewrite Hlt. rewrite scan_highest_no_better; [reflexivity|].
  eapply Forall_impl; [|exact Ha]. intros s Hs. simpl in Hs.
  apply Qle_trans with b; [exact Hs | apply Qlt_le_weak; exact Hc].
Qed.

Lemma scan_lowest_finds (l : list GameTree) :
  forall prob1 lp,
    lp <> None \/
    Exists (fun s => (white_win_probability s < prob1)%Q) l ->
    snd (scan_lowest l prob1 lp) <> None.
Proof.
  induction l as [|x r IH]; intros prob1 lp H; simpl.
  - destruct H as [H|H]; [exact H | inversion H].
  - destruct (Qlt_bool (white_win_probability x) prob1) eqn:E.
    + apply IH. left. discriminate.
    + apply Qlt_bool_false in E. apply IH.
      destruct H as [H|H]; [left; exact H|].
      inversion H as [x' r' Hx | x' r' Hr]; subst; [|right; exact Hr].
      exfalso. apply (Qlt_irrefl prob1). eapply Qle_lt_trans; eassumption.
Qed.

(** ** The players on the tree *)

Lemma on_tree (held : option GameTree) (t : GameTree) :
  held = Some t -> _subtrees t <> [] -> off_tree held = false.
Proof.
  intros -> Hne. unfold off_tree, get_subtrees.
  destruct (_subtrees t); [contradiction | reflexivity].
Qed.

Lemma random_subtree_spec (t : GameTree) (r : Rng) :
  _subtrees t <> [] ->
  exists c,
    nth_error (_subtrees t)
      (N.to_nat (next_draw r mod N.of_nat (length (_subtrees t)))) = Some c /\
    In c (_subtrees t) /\
    random_subtree t r = (Some (move c), Some c, advance r).
Proof.
  intros Hne.
  destruct (random_choice_nonempty (_subtrees t) r Hne) as [c [Hn [Hin Hc]]].
  exists c. split; [exact Hn|]. split; [exact Hin|].
  unfold random_subtree, get_subtrees. rewrite Hc. reflexivity.
Qed.

Section greedy.
Context {G : Type} `{minichess.MinichessGame G}.

Lemma greedy_on_tree (held : option GameTree) (game : G)
  (previous_move : option string) (r : Rng) (t : GameTree) :
  descend held previous_move = Some t -> _subtrees t <> [] ->
  GreedyTreePlayer_make_move held game previous_move r =
  greedy_choice t game r.
Proof.
  intros Hd Hne. unfold GreedyTreePlayer_make_move.
  rewrite (on_tree _ t Hd Hne), Hd. reflexivity.
Qed.

Lemma greedy_white_best (t : GameTree) (game : G) (r : Rng) :
  minichess.is_white_move game = true ->
  Exists (fun s => (0 < white_win_probability s)%Q) (_subtrees t) ->
  exists c,
    first_maximum c (_subtrees t) /\
    greedy_choice t game r = (Some (move c), Some c, r).
Proof.
  intros Hw Hex. unfold greedy_choice, get_subtrees. rewrite Hw.
  destruct (scan_highest_finds _ _ Hex) as [c [Hc Hmax]].
  exists c. rewrite Hc. auto.
Qed.

Lemma greedy_white_none (t : GameTree) (game : G) (r : Rng) :
  minichess.is_white_move game = true ->
  Forall (fun s => (white_win_probability s <= 0)%Q) (_subtrees t) ->
  greedy_choice t game r = random_subtree t r.
Proof.
  intros Hw Hall. unfold greedy_choice, get_subtrees. rewrite Hw.
  rewrite scan_highest_no_better by exact Hall. reflexivity.
Qed.

Lemma greedy_white_strict_maximum (t : GameTree) (game : G) (r : Rng)
  (before after : list GameTree) (c : GameTree) (b : Q) :
  minichess.is_white_move game = true ->
  _subtrees t = before ++ c :: after ->
  (0 <= b)%Q -> (b < white_win_probability c)%Q ->
  Forall (fun s => (white_win_probability s <= b)%Q) (before ++ after) ->
  greedy_choice t game r = (Some (move c), Some c, r).
Proof.
  intros Hw E H0 Hc Hall. unfold greedy_choice, get_subtrees.
  rewrite Hw, E.
  rewrite (scan_highest_strict_maximum before after c b H0 Hc Hall).
  reflexivity.
Qed.

End greedy.

(** C7: when [GreedyTreePlayer.make_move] stands on a node with subtrees
    and White is to move, then (1) if some subtree has an estimate above
    0, it returns the move of the first subtree with the greatest
    estimate and moves on to it, without drawing; (2) so it picks the
    subtree with estimate 0.9 when all the others have 0.1; (3) if no
    subtree has an estimate above 0, it moves on to the subtree that
    [random.choice] draws, each position of the list being the outcome of
    one value of the draw. *)
Theorem greedy_white_choice :
  forall (G : Type) (rules : minichess.MinichessGame G)
         (held : option GameTree) (game : G) (previous_move : option string)
         (r : Rng) (t : GameTree),
    descend held previous_move = Some t ->
    _subtrees t <> [] ->
    minichess.is_white_move game = true ->
    (Exists (fun s => (0 < white_win_probability s)%Q) (_subtrees t) ->
     exists c,
       first_maximum c (_subtrees t) /\
       GreedyTreePlayer_make_move held game previous_move r =
         (Some (move c), Some c, r)) /\
    (forall before c after,
       _subtrees t = before ++ c :: after ->
       (white_win_probability c == 9 # 10)%Q ->
       Forall (fun s => (white_win_probability s == 1 # 10)%Q)
              (before ++ after) ->
       GreedyTreePlayer_make_move held game previous_move r =
         (Some (move c), Some c, r)) /\
    (Forall (fun s => (white_win_probability s <= 0)%Q) (_subtrees t) ->
     exists c,
       nth_error (_subtrees t)
         (N.to_nat (next_draw r mod N.of_nat (length (_subtrees t))))
         = Some c /\
       GreedyTreePlayer_make_move held game previous_move r =
         (Some (move c), Some c, advance r)).
Proof.
  intros G rules held game previous_move r t Hd Hne Hw.
  rewrite (greedy_on_tree held game previous_move r t Hd Hne).
  split; [|split].
  - intros Hex. apply greedy_white_best; assumption.
  - intros before c after E Hc Hall.
    apply (greedy_white_strict_maximum t game r before after c (1 # 10));
      try assumption.
    + unit_interval.
    + rewrite Hc. reflexivity.
    + eapply Forall_impl; [|exact Hall]. intros s Hs. simpl in Hs.
      rewrite Hs. apply Qle_refl.
  - intros Hall. rewrite (greedy_white_none t game r Hw Hall).
    destruct (random_subtree_spec t r Hne) as [c [Hn [_ Hc]]].
    exists c. auto.
Qed.

Lemma greedy_white_choice_witness :
  GreedyTreePlayer_make_move (Some one_good_move) (countdown 2) None
                             counting_rng =
    (Some "b2c3"%string, Some (GameTree_init "b2c3" false (9 # 10)),
     counting_rng) /\
  exists c,
    nth_error (_subtrees build_sample_game_tree)
      (N.to_nat (next_draw (advance counting_rng)
                 mod N.of_nat (length (_subtrees build_sample_game_tree))))
      = Some c /\
    GreedyTreePlayer_make_move (Some build_sample_game_tree) (countdown 2)
                               None (advance counting_rng) =
      (Some (move c), Some c, advance (advance counting_rng)).
Proof.
  split.
  - assert (Hne : _subtrees one_good_move <> []) by (vm_compute; discriminate).
    destruct (greedy_white_choice Countdown Countdown_game
                (Some one_good_move) (countdown 2) None counting_rng
                one_good_move eq_refl Hne eq_refl) as [_ [H _]].
    apply (H [GameTree_init "a2b3" false (1 # 10)]
             (GameTree_init "b2c3" false (9 # 10))
             [GameTree_init "b2a3" false (1 # 10)]).
    + reflexivity.
    + reflexivity.
    + repeat constructor.
  - assert (Hne : _subtrees build_sample_game_tree <> [])
      by (vm_compute; discriminate).
    destruct (greedy_white_choice Countdown Countdown_game
                (Some build_sample_game_tree) (countdown 2) None
                (advance counting_rng)
                build_sample_game_tree eq_refl Hne eq_refl) as [_ [_ H]].
    apply H. vm_compute. repeat constructor; discriminate.
Defined.

(** ** ExploringPlayer without exploration *)

Lemma uniform_not_below_0 (r : Rng) :
  Qlt_bool (fst (random_uniform01 r)) 0%Q = false.
Proof.
  apply Qlt_bool_false. unfold random_uniform01. cbn [fst].
  unfold Qle. cbn [Qnum Qden]. rewrite Z.mul_0_l, Z.mul_1_r.
  apply N2Z.is_nonneg.
Qed.

Lemma scan_highest_in (l : list GameTree) :
  forall prob hp c,
    snd (scan_highest l prob hp) = Some c -> hp = Some c \/ In c l.
Proof.
  induction l as [|x r IH]; intros prob hp c H; simpl in *; [auto|].
  destruct (Qlt_bool prob (white_win_probability x)).
  - destruct (IH _ _ _ H) as [E|E]; [injection E as ->|]; auto.
  - destruct (IH _ _ _ H); auto.
Qed.

Lemma scan_lowest_in (l : list GameTree) :
  forall prob1 lp c,
    snd (scan_lowest l prob1 lp) = Some c -> lp = Some c \/ In c l.
Proof.
  induction l as [|x r IH]; intros prob1 lp c H; simpl in *; [auto|].
  destruct (Qlt_bool (white_win_probability x) prob1).
  - destruct (IH _ _ _ H) as [E|E]; [injection E as ->|]; auto.
  - destruct (IH _ _ _ H); auto.
Qed.

Section exploring.
Context {G : Type} `{minichess.MinichessGame G}.

Lemma greedy_choice_decided (t : GameTree) (game : G) :
  greedy_decides (minichess.is_white_move game) (_subtrees t) ->
  exists c, In c (_subtrees t) /\
            forall r, greedy_choice t game r = (Some (move c), Some c, r).
Proof.
  unfold greedy_decides, greedy_choice, get_subtrees.
  destruct (minichess.is_white_move game); intros Hex.
  - destruct (scan_highest_finds _ _ Hex) as [c [Hc _]].
    exists c. rewrite Hc.
    apply scan_highest_in in Hc. destruct Hc as [Hc|Hc]; [discriminate|].
    auto.
  - pose proof (scan_lowest_finds (_subtrees t) 1%Q None (or_intror Hex))
      as Hsome.
    destruct (snd (scan_lowest (_subtrees t) 1 None)) as [c|] eqn:Hc;
      [|contradiction].
    exists c.
    apply scan_lowest_in in Hc. destruct Hc as [Hc|Hc]; [discriminate|].
    auto.
Qed.

Lemma exploring_0_unfold (held : option GameTree) (game : G)
  (previous_move : option string) (r : Rng) :
  ExploringPlayer_make_move 0%Q held game previous_move r =
  if off_tree (descend held previous_move)
  then GreedyTreePlayer_make_move held game previous_move r
  else GreedyTreePlayer_make_move held game previous_move (advance r).
Proof.
  unfold ExploringPlayer_make_move, GreedyTreePlayer_make_move.
  destruct (off_tree (descend held previous_move)) eqn:E; [reflexivity|].
  destruct (descend held previous_move) as [t|]; [|discriminate].
  pose proof (uniform_not_below_0 r) as Hu.
  destruct (random_uniform01 r) as [number r'] eqn:Eu.
  assert (Er : r' = advance r)
    by (unfold random_uniform01 in Eu; injection Eu as _ <-; reflexivity).
  cbn [fst] in Hu. rewrite Hu, Er. reflexivity.
Qed.

End exploring.

(** C8, as the code has it: [ExploringPlayer] with exploration
    probability 0 makes the move of [GreedyTreePlayer] and updates
    [_game_tree] as it does, on the same draws when the tree is left and
    on the draws that follow the one it spends on its exploration test
    otherwise; on identical draws the two players therefore agree
    whenever the greedy choice needs no draw (some subtree above 0 for
    White, below 1 for Black). *)
Theorem exploring_0_is_greedy_after_its_draw :
  forall (G : Type) (rules : minichess.MinichessGame G)
         (held : option GameTree) (game : G) (previous_move : option string)
         (r : Rng),
    ExploringPlayer_make_move 0%Q held game previous_move r =
      (if off_tree (descend held previous_move)
       then GreedyTreePlayer_make_move held game previous_move r
       else GreedyTreePlayer_make_move held game previous_move (advance r)) /\
    (forall t,
       descend held previous_move = Some t ->
       greedy_decides (minichess.is_white_move game) (_subtrees t) ->
       outcome (ExploringPlayer_make_move 0%Q held game previous_move r) =
       outcome (GreedyTreePlayer_make_move held game previous_move r)).
Proof.
  intros G rules held game previous_move r. split.
  - apply exploring_0_unfold.
  - intros t Hd Hdec. rewrite exploring_0_unfold.
    destruct (off_tree (descend held previous_move)); [reflexivity|].
    assert (Hne : _subtrees t <> []).
    { intros E. unfold greedy_decides in Hdec. rewrite E in Hdec.
      destruct (minichess.is_white_move game); inversion Hdec. }
    rewrite !(greedy_on_tree held game previous_move _ t Hd Hne).
    destruct (greedy_choice_decided t game Hdec) as [c [_ Hc]].
    rewrite !Hc. reflexivity.
Qed.

Lemma exploring_0_is_greedy_after_its_draw_witness :
  outcome (ExploringPlayer_make_move 0%Q (Some one_good_move) (countdown 2)
             None counting_rng) =
  outcome (GreedyTreePlayer_make_move (Some one_good_move) (countdown 2)
             None counting_rng).
Proof.
  destruct (exploring_0_is_greedy_after_its_draw Countdown Countdown_game
              (Some one_good_move) (countdown 2) None counting_rng)
    as [_ H].
  apply (H one_good_move).
  - reflexivity.
  - vm_compute. right. left. reflexivity.
Defined.

(** The claim of C8 as it is worded fails: on the sample tree, whose
    estimates are all 0, with White to move and the draws 0, 1, ...,
    [GreedyTreePlayer] picks the subtree of the first draw and
    [ExploringPlayer] the subtree of the second. *)
Lemma exploring_0_differs_from_greedy :
  ~ (forall (G : Type) (rules : minichess.MinichessGame G)
            (held : option GameTree) (game : G)
            (previous_move : option string) (r : Rng),
       outcome (ExploringPlayer_make_move 0%Q held game previous_move r) =
       outcome (GreedyTreePlayer_make_move held game previous_move r)).
Proof.
  intros H.
  specialize (H Countdown Countdown_game (Some build_sample_game_tree)
                (countdown 2) None counting_rng).
  vm_compute in H. discriminate.
Qed.

(** ** Leaving the tree *)

Section leaving.
Context {G : Type} `{minichess.MinichessGame G}.

Lemma random_valid_move_spec (game : G) (held : option GameTree) (r : Rng) :
  minichess.get_valid_moves game <> [] ->
  exists mv,
    nth_error (minichess.get_valid_moves game)
      (N.to_nat (next_draw r
                 mod N.of_nat (length (minichess.get_valid_moves game))))
      = Some mv /\
    random_valid_move game held r = (Some mv, None, advance r).
Proof.
  intros Hne.
  destruct (random_choice_nonempty (minichess.get_valid_moves game) r Hne)
    as [mv [Hn [_ Hc]]].
  exists mv. split; [exact Hn|].
  unfold random_valid_move. rewrite Hc. reflexivity.
Qed.

Lemma random_valid_move_absent (game : G) (r : Rng) :
  snd (fst (random_valid_move game None r)) = None.
Proof.
  unfold random_valid_move.
  destruct (random_choice (minichess.get_valid_moves game) r) as [[mv|] r'];
    reflexivity.
Qed.

Lemma descend_absent (previous_move : option string) :
  descend None previous_move = None.
Proof. destruct previous_move; reflexivity. Qed.

Lemma random_off_tree (held : option GameTree) (game : G)
  (previous_move : option string) (r : Rng) :
  off_tree (descend held previous_move) = true ->
  RandomTreePlayer_make_move held game previous_move r =
  random_valid_move game (descend held previous_move) r.
Proof.
  intros E. unfold RandomTreePlayer_make_move. rewrite E. reflexivity.
Qed.

Lemma greedy_off_tree (held : option GameTree) (game : G)
  (previous_move : option string) (r : Rng) :
  off_tree (descend held previous_move) = true ->
  GreedyTreePlayer_make_move held game previous_move r =
  random_valid_move game (descend held previous_move) r.
Proof.
  intros E. unfold GreedyTreePlayer_make_move. rewrite E. reflexivity.
Qed.

Lemma exploring_off_tree (p : Q) (held : option GameTree) (game : G)
  (previous_move : option string) (r : Rng) :
  off_tree (descend held previous_move) = true ->
  ExploringPlayer_make_move p held game previous_move r =
  random_valid_move game (descend held previous_move) r.
Proof.
  intros E. unfold ExploringPlayer_make_move. rewrite E. reflexivity.
Qed.

Lemma held_after_absent
  (make_move : option GameTree -> G -> option string -> Rng -> MoveResult) :
  (forall game previous_move r,
      snd (fst (make_move None game previous_move r)) = None) ->
  forall calls r, held_after make_move None r calls = None.
Proof.
  intros Hmm calls. induction calls as [|[game pm] later IH]; intros r.
  - reflexivity.
  - simpl. specialize (Hmm game pm r).
    destruct (make_move None game pm r) as [[mv held'] r'].
    simpl in Hmm. subst held'. apply IH.
Qed.

Lemma random_stays_absent (game : G) (previous_move : option string)
  (r : Rng) :
  snd (fst (RandomTreePlayer_make_move None game previous_move r)) = None.
Proof.
  rewrite random_off_tree; rewrite descend_absent;
    [apply random_valid_move_absent | reflexivity].
Qed.

Lemma greedy_stays_absent (game : G) (previous_move : option string)
  (r : Rng) :
  snd (fst (GreedyTreePlayer_make_move None game previous_move r)) = None.
Proof.
  rewrite greedy_off_tree; rewrite descend_absent;
    [apply random_valid_move_absent | reflexivity].
Qed.

Lemma exploring_stays_absent (p : Q) (game : G)
  (previous_move : option string) (r : Rng) :
  snd (fst (ExploringPlayer_make_move p None game previous_move r)) = None.
Proof.
  rewrite exploring_off_tree; rewrite descend_absent;
    [apply random_valid_move_absent | reflexivity].
Qed.

End leaving.

(** C9: when, after following the opponent's move, the [_game_tree] of a
    player is [None] or has no subtrees (and the game has a valid move,
    as [make_move] requires), each of the three players returns the
    valid move that [random.choice] draws, each position of the list
    being the outcome of one value of the draw, and sets [_game_tree] to
    [None]; from [None] it stays [None] through every later call. *)
Theorem off_tree_fallback :
  forall (G : Type) (rules : minichess.MinichessGame G) (p : Q)
         (held : option GameTree) (game : G) (previous_move : option string)
         (r : Rng),
    off_tree (descend held previous_move) = true ->
    minichess.get_valid_moves game <> [] ->
    exists mv,
      nth_error (minichess.get_valid_moves game)
        (N.to_nat (next_draw r
                   mod N.of_nat (length (minichess.get_valid_moves game))))
        = Some mv /\
      RandomTreePlayer_make_move held game previous_move r
        = (Some mv, None, advance r) /\
      GreedyTreePlayer_make_move held game previous_move r
        = (Some mv, None, advance r) /\
      ExploringPlayer_make_move p held game previous_move r
        = (Some mv, None, advance r) /\
      forall (calls : list (G * option string)) (r' : Rng),
        held_after RandomTreePlayer_make_move None r' calls = None /\
        held_after GreedyTreePlayer_make_move None r' calls = None /\
        held_after (ExploringPlayer_make_move p) None r' calls = None.
Proof.
  intros G rules p held game previous_move r Hoff Hne.
  destruct (random_valid_move_spec game (descend held previous_move) r Hne)
    as [mv [Hn Hmv]].
  exists mv. split; [exact Hn|].
  rewrite random_off_tree, greedy_off_tree, exploring_off_tree by exact Hoff.
  repeat (split; [exact Hmv|]).
  intros calls r'. repeat split; apply held_after_absent; intros.
  - apply random_stays_absent.
  - apply greedy_stays_absent.
  - apply exploring_stays_absent.
Qed.

Lemma off_tree_fallback_witness :
  exists mv,
    nth_error (minichess.get_valid_moves (countdown 3))
      (N.to_nat (next_draw (advance counting_rng)
                 mod N.of_nat
                       (length (minichess.get_valid_moves (countdown 3)))))
      = Some mv /\
    RandomTreePlayer_make_move (Some build_sample_game_tree) (countdown 3)
        (Some "a2b3"%string) (advance counting_rng)
      = (Some mv, None, advance (advance counting_rng)) /\
    GreedyTreePlayer_make_move (Some build_sample_game_tree) (countdown 3)
        (Some "a2b3"%string) (advance counting_rng)
      = (Some mv, None, advance (advance counting_rng)) /\
    ExploringPlayer_make_move (1 # 2) (Some build_sample_game_tree)
        (countdown 3) (Some "a2b3"%string) (advance counting_rng)
      = (Some mv, None, advance (advance counting_rng)) /\
    forall (calls : list (Countdown * option string)) (r' : Rng),
      held_after RandomTreePlayer_make_move None r' calls = None /\
      held_after GreedyTreePlayer_make_move None r' calls = None /\
      held_after (ExploringPlayer_make_move (1 # 2)) None r' calls = None.
Proof.
  apply (off_tree_fallback Countdown Countdown_game (1 # 2)
           (Some build_sample_game_tree) (countdown 3) (Some "a2b3"%string)
           (advance counting_rng)).
  - reflexivity.
  - simpl. discriminate.
Defined.

(** ** Moves taken from the tree *)

Section tree_moves.
Context {G : Type} `{minichess.MinichessGame G}.

Lemma random_on_tree (held : option GameTree) (game : G)
  (previous_move : option string) (r : Rng) (t : GameTree) :
  descend held previous_move = Some t -> _subtrees t <> [] ->
  RandomTreePlayer_make_move held game previous_move r = random_subtree t r.
Proof.
  intros Hd Hne. unfold RandomTreePlayer_make_move.
  rewrite (on_tree _ t Hd Hne), Hd. reflexivity.
Qed.

Lemma greedy_choice_in_tree (t : GameTree) (game : G) (r : Rng) :
  _subtrees t <> [] ->
  exists c r',
    In c (_subtrees t) /\
    greedy_choice t game r = (Some (move c), Some c, r').
Proof.
  intros Hne. unfold greedy_choice, get_subtrees.
  destruct (random_subtree_spec t r Hne) as [c0 [_ [Hin0 Hc0]]].
  destruct (minichess.is_white_move game).
  - destruct (snd (scan_highest (_subtrees t) 0 None)) as [c|] eqn:E.
    + apply scan_highest_in in E. destruct E as [E|E]; [discriminate|].
      exists c, r. auto.
    + exists c0, (advance r). auto.
  - destruct (snd (scan_lowest (_subtrees t) 1 None)) as [c|] eqn:E.
    + apply scan_lowest_in in E. destruct E as [E|E]; [discriminate|].
      exists c, r. auto.
    + exists c0, (advance r). auto.
Qed.

End tree_moves.

(** C10: when [RandomTreePlayer] or [GreedyTreePlayer] stands on a node
    with subtrees after following the opponent's move, the move returned
    is the move of one of these subtrees and [_game_tree] becomes that
    subtree; the valid moves of the game play no part: any other game
    object (for the greedy player, one with the same side to move), of
    any rules engine and whatever its valid moves, gives the same
    result. *)
Theorem on_tree_move_is_a_subtree_move :
  forall (G : Type) (rules : minichess.MinichessGame G)
         (held : option GameTree) (game : G) (previous_move : option string)
         (r : Rng) (t : GameTree),
    descend held previous_move = Some t ->
    _subtrees t <> [] ->
    (exists c,
        In c (_subtrees t) /\
        RandomTreePlayer_make_move held game previous_move r
          = (Some (move c), Some c, advance r)) /\
    (exists c r',
        In c (_subtrees t) /\
        GreedyTreePlayer_make_move held game previous_move r
          = (Some (move c), Some c, r')) /\
    (forall (G2 : Type) (rules2 : minichess.MinichessGame G2) (game2 : G2),
        RandomTreePlayer_make_move held game2 previous_move r =
        RandomTreePlayer_make_move held game previous_move r) /\
    (forall (G2 : Type) (rules2 : minichess.MinichessGame G2) (game2 : G2),
        minichess.is_white_move game2 = minichess.is_white_move game ->
        GreedyTreePlayer_make_move held game2 previous_move r =
        GreedyTreePlayer_make_move held game previous_move r).
Proof.
  intros G rules held game previous_move r t Hd Hne.
  split; [|split; [|split]].
  - rewrite (random_on_tree held game previous_move r t Hd Hne).
    destruct (random_subtree_spec t r Hne) as [c [_ [Hin Hc]]].
    exists c. auto.
  - rewrite (greedy_on_tree held game previous_move r t Hd Hne).
    apply greedy_choice_in_tree. exact Hne.
  - intros G2 rules2 game2.
    rewrite (random_on_tree held game previous_move r t Hd Hne).
    apply (random_on_tree held game2 previous_move r t Hd Hne).
  - intros G2 rules2 game2 Hw.
    rewrite (greedy_on_tree held game previous_move r t Hd Hne).
    rewrite (greedy_on_tree held game2 previous_move r t Hd Hne).
    unfold greedy_choice. rewrite Hw. reflexivity.
Qed.

Lemma on_tree_move_is_a_subtree_move_witness :
  (exists c,
      In c (_subtrees build_sample_game_tree) /\
      RandomTreePlayer_make_move (Some build_sample_game_tree) (countdown 0)
          None counting_rng
        = (Some (move c), Some c, advance counting_rng)) /\
  GreedyTreePlayer_make_move (Some one_good_move) (countdown 0) None
      counting_rng =
  GreedyTreePlayer_make_move (Some one_good_move) (countdown 2) None
      counting_rng.
Proof.
  split.
  - assert (Hne : _subtrees build_sample_game_tree <> [])
      by (vm_compute; discriminate).
    destruct (on_tree_move_is_a_subtree_move Countdown Countdown_game
                (Some build_sample_game_tree) (countdown 0) None
                counting_rng build_sample_game_tree eq_refl Hne)
      as [H _].
    exact H.
  - assert (Hne : _subtrees one_good_move <> [])
      by (vm_compute; discriminate).
    destruct (on_tree_move_is_a_subtree_move Countdown Countdown_game
                (Some one_good_move) (countdown 2) None
                counting_rng one_good_move eq_refl Hne)
      as [_ [_ [_ H]]].
    apply (H Countdown Countdown_game (countdown 0)). reflexivity.
Defined.

(** * Further properties of the sources *)

(** ** Lookup and [add_subtree] *)

Lemma find_first (mv : string) (subs : list GameTree) :
  match find (has_move mv) subs with
  | Some c =>
      exists before after,
        subs = before ++ c :: after /\ move c = mv /\
        forall s, In s before -> move s <> mv
  | None => ~ In mv (map move subs)
  end.
Proof.
  induction subs as [|x r IH]; simpl.
  - intros [].
  - unfold has_move at 1. destruct (String.eqb_spec (move x) mv) as [E|E].
    + exists [], r. repeat split; [exact E | intros s []].
    + destruct (find (has_move mv) r) as [c|].
      * destruct IH as [before [after [-> [Hc Hb]]]].
        exists (x :: before), after. repeat split; [exact Hc|].
        intros s [<-|Hs]; [exact E | apply Hb, Hs].
      * intros [H|H]; [exact (E H) | exact (IH H)].
Qed.

(** X1: [find_subtree_by_move] returns the first subtree that carries
    the move, and [None] exactly when no subtree carries it. *)
Theorem find_subtree_by_move_first :
  forall (t : GameTree) (mv : string),
    match find_subtree_by_move t mv with
    | Some c =>
        exists before after,
          _subtrees t = before ++ c :: after /\ move c = mv /\
          forall s, In s before -> move s <> mv
    | None => ~ In mv (map move (_subtrees t))
    end.
Proof. intros t mv. apply find_first. Qed.

Lemma find_snoc (mv : string) (subs : list GameTree) (x : GameTree) :
  find (has_move mv) (subs ++ [x]) =
  match find (has_move mv) subs with
  | Some c => Some c
  | None => if String.eqb (move x) mv then Some x else None
  end.
Proof.
  induction subs as [|s r IH]; simpl; [reflexivity|].
  destruct (has_move mv s); [reflexivity | exact IH].
Qed.

(** X2: looking a move up after [add_subtree]: a subtree that already
    carried the move is still the one found, so a subtree added under a
    move that is already there is never reached by the lookup; otherwise
    the added subtree is found under its own move. *)
Theorem add_subtree_then_find :
  forall (t s : GameTree) (mv : string),
    find_subtree_by_move (add_subtree t s) mv =
    match find_subtree_by_move t mv with
    | Some c => Some c
    | None => if String.eqb (move s) mv then Some s else None
    end.
Proof.
  intros t s mv. rewrite !find_subtree_by_move_unfold.
  unfold add_subtree. rewrite update_subtrees. apply find_snoc.
Qed.

Lemma NoDup_snoc_iff {A : Type} (l : list A) (x : A) :
  NoDup (l ++ [x]) <-> NoDup l /\ ~ In x l.
Proof.
  split.
  - intros H. apply NoDup_remove in H. rewrite app_nil_r in H. exact H.
  - intros [Hl Hx]. apply NoDup_snoc; assumption.
Qed.

(** X3: [add_subtree] appends the subtree at the end and keeps the move
    and the side of the node, without looking at the moves already
    there: the subtrees have pairwise distinct moves afterwards exactly
    when they had before and the new move was not among them. *)
Theorem add_subtree_appends_unchecked :
  forall t s : GameTree,
    move (add_subtree t s) = move t /\
    is_white_move (add_subtree t s) = is_white_move t /\
    _subtrees (add_subtree t s) = _subtrees t ++ [s] /\
    (NoDup (map move (_subtrees (add_subtree t s))) <->
     NoDup (map move (_subtrees t)) /\ ~ In (move s) (map move (_subtrees t))).
Proof.
  intros t s. unfold add_subtree.
  rewrite update_move, update_is_white_move, update_subtrees. simpl.
  split; [reflexivity|]. split; [reflexivity|]. split; [reflexivity|].
  rewrite map_app. simpl. apply NoDup_snoc_iff.
Qed.

(** ** More on [insert_move_sequence] *)

Lemma write_back_none (mv : string) (x : GameTree) (subs : list GameTree) :
  find (has_move mv) subs = None -> write_back mv x subs = subs.
Proof.
  induction subs as [|s r IH]; simpl; [reflexivity|]. unfold has_move in *.
  destruct (String.eqb (move s) mv); [discriminate|].
  intros H. rewrite IH by exact H. reflexivity.
Qed.

Lemma insert_find (t : GameTree) (mv mv' : string) (rest : list string)
  (q : Q) :
  find_subtree_by_move (insert_move_sequence t (mv :: rest) q) mv' =
  if String.eqb mv' mv
  then Some (insert_move_sequence (child_for t mv q) rest q)
  else find_subtree_by_move t mv'.
Proof.
  destruct (String.eqb_spec mv' mv) as [->|Hne]; [apply insert_find_same|].
  destruct (find_subtree_by_move t mv') as [c|] eqn:E.
  - apply insert_find_other; assumption.
  - rewrite find_subtree_by_move_unfold in *. rewrite insert_subtrees.
    assert (Hx : move (insert_move_sequence (child_for t mv q) rest q) = mv)
      by (rewrite insert_move; apply child_for_move).
    destruct (find_subtree_by_move t mv).
    + rewrite find_write_back_other; assumption.
    + rewrite find_snoc, E, Hx.
      apply String.eqb_neq in Hne. rewrite String.eqb_sym, Hne. reflexivity.
Qed.

Lemma insert_moves (t : GameTree) (mv : string) (rest : list string)
  (q : Q) :
  map move (_subtrees (insert_move_sequence t (mv :: rest) q)) =
  map move (_subtrees t) ++
  match find_subtree_by_move t mv with Some _ => [] | None => [mv] end.
Proof.
  rewrite insert_subtrees.
  assert (Hx : move (insert_move_sequence (child_for t mv q) rest q) = mv)
    by (rewrite insert_move; apply child_for_move).
  destruct (find_subtree_by_move t mv).
  - rewrite write_back_moves by exact Hx. rewrite app_nil_r. reflexivity.
  - rewrite map_app. simpl. rewrite Hx. reflexivity.
Qed.

(** X4: an insertion keeps the move and the side of the node it is
    called on and the order of its subtrees, adds at most the first move
    of the path at the end, and changes no subtree but the one under the
    first move of the path. *)
Theorem insertion_touches_one_subtree :
  forall (t : GameTree) (mv : string) (rest : list string) (q : Q),
    move (insert_move_sequence t (mv :: rest) q) = move t /\
    is_white_move (insert_move_sequence t (mv :: rest) q) = is_white_move t /\
    map move (_subtrees (insert_move_sequence t (mv :: rest) q)) =
      map move (_subtrees t) ++
      match find_subtree_by_move t mv with Some _ => [] | None => [mv] end /\
    forall mv',
      find_subtree_by_move (insert_move_sequence t (mv :: rest) q) mv' =
      if String.eqb mv' mv
      then Some (insert_move_sequence
                   (match find_subtree_by_move t mv with
                    | Some move_tree => move_tree
                    | None => GameTree_init mv (negb (is_white_move t)) q
                    end) rest q)
      else find_subtree_by_move t mv'.
Proof.
  intros t mv rest q. repeat split.
  - apply insert_move.
  - apply insert_is_white_move.
  - apply insert_moves.
  - intros mv'. apply insert_find.
Qed.

(** *** The number of nodes *)

Lemma size_unfold (t : GameTree) : size t = S (total_size (_subtrees t)).
Proof.
  destruct t as [mv white p subs]. simpl. f_equal. unfold total_size.
  induction subs as [|s r IH]; simpl; [reflexivity | rewrite IH; reflexivity].
Qed.

Lemma size_update (t : GameTree) :
  size (_update_white_win_probability t) = size t.
Proof. rewrite !size_unfold, update_subtrees. reflexivity. Qed.

Lemma total_size_app (l1 l2 : list GameTree) :
  total_size (l1 ++ l2) = total_size l1 + total_size l2.
Proof. unfold total_size. rewrite map_app, list_sum_app. reflexivity. Qed.

Lemma total_size_write_back (mv : string) (subs : list GameTree)
  (c x : GameTree) :
  find (has_move mv) subs = Some c ->
  total_size (write_back mv x subs) + size c = total_size subs + size x.
Proof.
  unfold total_size.
  induction subs as [|s r IH]; simpl; [discriminate|]. unfold has_move in *.
  destruct (String.eqb (move s) mv).
  - intros H. injection H as ->. simpl. lia.
  - intros H. specialize (IH H). simpl. lia.
Qed.

Lemma present_prefix_leaf (t : GameTree) (path : list string) :
  _subtrees t = [] -> present_prefix t path = 0.
Proof.
  intros E. destruct path as [|mv rest]; [reflexivity|]. simpl.
  rewrite find_subtree_by_move_unfold, E. reflexivity.
Qed.

Lemma present_prefix_le (path : list string) :
  forall t, present_prefix t path <= length path.
Proof.
  induction path as [|mv rest IH]; intros t; simpl; [lia|].
  destruct (find_subtree_by_move t mv) as [c|]; [|lia].
  specialize (IH c). lia.
Qed.

Lemma insertion_node_count_general :
  forall (path : list string) (t : GameTree) (q : Q),
    size (insert_move_sequence t path q) =
    size t + (length path - present_prefix t path).
Proof.
  induction path as [|mv rest IH]; intros t q.
  - rewrite insert_move_sequence_nil. simpl. lia.
  - rewrite (size_unfold (insert_move_sequence t (mv :: rest) q)).
    rewrite insert_subtrees. unfold child_for. simpl present_prefix.
    rewrite (size_unfold t).
    destruct (find_subtree_by_move t mv) as [c|] eqn:E.
    + rewrite find_subtree_by_move_unfold in E.
      pose proof (total_size_write_back mv (_subtrees t) c
                    (insert_move_sequence c rest q) E) as Hw.
      rewrite IH in Hw. pose proof (present_prefix_le rest c). simpl. lia.
    + rewrite total_size_app. unfold total_size at 2. simpl.
      rewrite IH. rewrite present_prefix_leaf by reflexivity.
      simpl. lia.
Qed.

(** X5: an insertion creates exactly one node for every move of the path
    beyond the longest prefix that was already in the tree, and removes
    none. *)
Theorem insertion_node_count :
  forall (path : list string) (t : GameTree) (q : Q),
    size (insert_move_sequence t path q) =
    size t + (length path - present_prefix t path).
Proof. exact insertion_node_count_general. Qed.

(** *** The side to move *)

Lemma sides_alternate_leaf (mv : string) (white : bool) (p : Q) :
  sides_alternate (GameTree_init mv white p).
Proof. constructor; simpl; constructor. Qed.

Lemma sides_alternate_update (t : GameTree) :
  Forall (fun c => is_white_move c = negb (is_white_move t)) (_subtrees t) ->
  Forall sides_alternate (_subtrees t) ->
  sides_alternate (_update_white_win_probability t).
Proof.
  intros H1 H2. constructor.
  - rewrite update_subtrees, update_is_white_move. exact H1.
  - rewrite update_subtrees. exact H2.
Qed.

Lemma insert_sides_alternate (path : list string) :
  forall (t : GameTree) (q : Q),
    sides_alternate t -> sides_alternate (insert_move_sequence t path q).
Proof.
  induction path as [|mv rest IH]; intros t q H.
  - rewrite insert_move_sequence_nil. exact H.
  - inversion H as [t' Hside Hall]; subst t'.
    rewrite insert_move_sequence_cons.
    destruct (find_subtree_by_move t mv) as [c|] eqn:E.
    + apply find_has_move in E. destruct E as [_ Hin].
      rewrite Forall_forall in Hside, Hall.
      apply sides_alternate_update; simpl.
      * apply write_back_Forall; [|apply Forall_forall; exact Hside].
        rewrite insert_is_white_move. apply Hside, Hin.
      * apply write_back_Forall; [|apply Forall_forall; exact Hall].
        apply IH, Hall, Hin.
    + apply sides_alternate_update; simpl.
      * apply Forall_app. split; [exact Hside|].
        constructor; [|constructor]. rewrite insert_is_white_move.
        reflexivity.
      * apply Forall_app. split; [exact Hall|].
        constructor; [|constructor]. apply IH, sides_alternate_leaf.
Qed.

(** X6: in a tree in which the side to move changes from every node to
    its subtrees, it still does after an insertion: a node that the
    insertion creates gets the side opposite to its parent's. *)
Theorem insertion_keeps_sides_alternating :
  forall (t : GameTree) (path : list string) (q : Q),
    sides_alternate t -> sides_alternate (insert_move_sequence t path q).
Proof. intros t path q H. apply insert_sides_alternate. exact H. Qed.

Ltac alternating_sides :=
  repeat (cbn [_subtrees is_white_move negb];
          match goal with
          | |- sides_alternate _ => apply sides_alternate_node
          | |- Forall _ _ => constructor
          | |- _ = _ => reflexivity
          end).

Lemma insertion_keeps_sides_alternating_witness :
  sides_alternate (insert_move_sequence build_sample_game_tree
                     ["c2d3"; "d4d3"; "a1a2"]%string 1%Q).
Proof.
  apply insertion_keeps_sides_alternating.
  vm_compute. alternating_sides.
Defined.

(** *** Estimates after an insertion *)

Lemma rounded_sum_zero (l : list Q) :
  forall s : Q,
    (s == 0)%Q -> Forall (fun x => (x == 0)%Q) l ->
    (fold_left (fun s x => fl (s + x)%Q) l s == 0)%Q.
Proof.
  induction l as [|x r IH]; intros s Hs H; simpl; [exact Hs|].
  inversion H as [|x' r' Hx Hr]; subst.
  apply IH; [|exact Hr].
  rewrite (fl_of_zero (s + x)); [reflexivity | lra].
Qed.

Lemma rounded_mean_zero (l : list Q) :
  Forall (fun x => (x == 0)%Q) l -> (rounded_mean l == 0)%Q.
Proof.
  intros H. unfold rounded_mean, rounded_sum.
  rewrite (fl_of_zero
             (fold_left (fun s x => fl (s + x)) l 0 /
              fl (inject_Z (Z.of_nat (length l))))%Q); [reflexivity|].
  unfold Qdiv. rewrite (rounded_sum_zero l 0); [ring | reflexivity | exact H].
Qed.

Lemma update_estimate_zero (t : GameTree) :
  Forall (fun c => (white_win_probability c == 0)%Q) (_subtrees t) ->
  (white_win_probability t == 0)%Q ->
  (white_win_probability (_update_white_win_probability t) == 0)%Q.
Proof.
  intros Hall H0. pose proof (update_agrees t) as H.
  unfold agrees_with_subtrees in H.
  destruct (_subtrees t) as [|c r] eqn:E.
  - unfold _update_white_win_probability. rewrite E. exact H0.
  - destruct (is_white_move t).
    + destruct H as [Hin _]. apply in_map_iff in Hin.
      destruct Hin as [x [<- Hx]]. rewrite Forall_forall in Hall.
      apply Hall, Hx.
    + rewrite H. apply rounded_mean_zero.
      apply Forall_map. exact Hall.
Qed.

Lemma estimates_equal_root (q : Q) (t : GameTree) :
  estimates_equal q t -> (white_win_probability t == q)%Q.
Proof. intros H. inversion H. assumption. Qed.

Lemma estimates_zero_update (t : GameTree) :
  (white_win_probability t == 0)%Q ->
  Forall (estimates_equal 0%Q) (_subtrees t) ->
  estimates_equal 0%Q (_update_white_win_probability t).
Proof.
  intros H0 Hall. constructor.
  - apply update_estimate_zero; [|exact H0].
    eapply Forall_impl; [|exact Hall]. apply estimates_equal_root.
  - rewrite update_subtrees. exact Hall.
Qed.

Lemma insert_estimates_zero (path : list string) :
  forall t : GameTree,
    estimates_equal 0%Q t ->
    estimates_equal 0%Q (insert_move_sequence t path 0%Q).
Proof.
  induction path as [|mv rest IH]; intros t Ht.
  - rewrite insert_move_sequence_nil. exact Ht.
  - inversion Ht as [t' H0 Hall]; subst.
    rewrite insert_move_sequence_cons.
    destruct (find_subtree_by_move t mv) as [c|] eqn:E;
      apply estimates_zero_update; simpl; try exact H0.
    + apply find_has_move in E. destruct E as [_ Hin].
      apply write_back_Forall; [|exact Hall].
      apply IH. rewrite Forall_forall in Hall. apply Hall, Hin.
    + apply Forall_app. split; [exact Hall|].
      constructor; [|constructor]. apply IH.
      constructor; simpl; [reflexivity | constructor].
Qed.

(** *** Estimates that agree with the subtrees, everywhere *)

Lemma all_recomputed_update (t : GameTree) :
  Forall all_recomputed (_subtrees t) ->
  all_recomputed (_update_white_win_probability t).
Proof.
  intros H. constructor; [apply update_recomputed|].
  rewrite update_subtrees. exact H.
Qed.

Lemma all_recomputed_subtrees (t : GameTree) :
  all_recomputed t -> Forall all_recomputed (_subtrees t).
Proof. intros H. inversion H. assumption. Qed.

Lemma all_recomputed_leaf (mv : string) (white : bool) (p : Q) :
  all_recomputed (GameTree_init mv white p).
Proof. constructor; [exact I | constructor]. Qed.

Lemma add_subtree_all_recomputed (t s : GameTree) :
  all_recomputed t -> all_recomputed s -> all_recomputed (add_subtree t s).
Proof.
  intros Ht Hs. unfold add_subtree. apply all_recomputed_update. simpl.
  apply Forall_app. split; [apply all_recomputed_subtrees; exact Ht|].
  constructor; [exact Hs | constructor].
Qed.

Lemma insert_all_recomputed (path : list string) :
  forall (t : GameTree) (q : Q),
    all_recomputed t -> all_recomputed (insert_move_sequence t path q).
Proof.
  induction path as [|mv rest IH]; intros t q H.
  - rewrite insert_move_sequence_nil. exact H.
  - pose proof (all_recomputed_subtrees t H) as Hall.
    rewrite insert_move_sequence_cons.
    destruct (find_subtree_by_move t mv) as [c|] eqn:E;
      apply all_recomputed_update; simpl.
    + apply find_has_move in E. destruct E as [_ Hin].
      apply write_back_Forall; [|exact Hall].
      apply IH. rewrite Forall_forall in Hall. apply Hall, Hin.
    + apply Forall_app. split; [exact Hall|].
      constructor; [|constructor]. apply IH, all_recomputed_leaf.
Qed.

(** X8: when every node with subtrees carries the estimate computed from
    them (the maximum for White; for Black the mean as float arithmetic
    gives it, [rounded_mean]), this still holds after [add_subtree] of
    such a tree and after any insertion. *)
Theorem estimates_stay_recomputed :
  forall (t s : GameTree) (path : list string) (q : Q),
    all_recomputed t ->
    (all_recomputed s -> all_recomputed (add_subtree t s)) /\
    all_recomputed (insert_move_sequence t path q).
Proof.
  intros t s path q H. split.
  - intros Hs. apply add_subtree_all_recomputed; assumption.
  - apply insert_all_recomputed. exact H.
Qed.

Lemma estimates_stay_recomputed_witness :
  all_recomputed
    (add_subtree GameTree_default (GameTree_init "a2b3" false (1 # 2))) /\
  all_recomputed
    (insert_move_sequence GameTree_default ["a2b3"; "d2c3"]%string 1%Q).
Proof.
  destruct (estimates_stay_recomputed GameTree_default
              (GameTree_init "a2b3" false (1 # 2))
              ["a2b3"; "d2c3"]%string 1%Q
              (all_recomputed_leaf GAME_START_MOVE true 0%Q)) as [H1 H2].
  split; [apply H1, all_recomputed_leaf | exact H2].
Defined.

(** ** [load_game_tree] *)

Lemma load_game_tree_invariant (P : GameTree -> Prop) :
  P GameTree_default ->
  (forall t row, P t -> P (insert_move_sequence t row 0%Q)) ->
  forall rows, P (load_game_tree rows).
Proof.
  intros H0 Hstep rows. unfold load_game_tree.
  generalize GameTree_default H0.
  induction rows as [|row rows IH]; intros t Ht; simpl; [exact Ht|].
  apply IH, Hstep, Ht.
Qed.

Lemma load_game_tree_insert_all (rows : list (list string)) :
  load_game_tree rows =
  insert_all GameTree_default (map (fun row => (row, 0%Q)) rows).
Proof.
  unfold load_game_tree, insert_all. generalize GameTree_default.
  induction rows as [|row rows IH]; intros t; simpl; [reflexivity|].
  apply IH.
Qed.

Lemma insert_all_finds (calls : list (list string * Q)) :
  forall (t : GameTree) (path : list string) (q : Q),
    In (path, q) calls ->
    exists n, node_at (insert_all t calls) path = Some n.
Proof.
  induction calls as [|[moves p] calls IH]; intros t path q Hin;
    [destruct Hin|].
  destruct Hin as [Heq|Hin].
  - injection Heq as -> ->.
    destruct (insert_reaches_end path t q) as [n Hn].
    exact (insert_all_keeps_paths calls _ _ _ Hn).
  - exact (IH _ path q Hin).
Qed.

(** X9: the tree that [load_game_tree] builds from any rows has the
    start move at its root with White to move; every estimate in it is
    0; sibling moves are pairwise distinct, the side to move alternates,
    every estimate agrees with the subtrees (the maximum for White, the
    float mean for Black: sums and quotients of zeros are zero); and
    every row is found move by move from the root. *)
Theorem load_game_tree_properties :
  forall rows : list (list string),
    move (load_game_tree rows) = GAME_START_MOVE /\
    is_white_move (load_game_tree rows) = true /\
    estimates_equal 0%Q (load_game_tree rows) /\
    distinct_moves (load_game_tree rows) /\
    sides_alternate (load_game_tree rows) /\
    all_recomputed (load_game_tree rows) /\
    forall row pre post,
      In row rows -> row = pre ++ post ->
      exists n, node_at (load_game_tree rows) pre = Some n.
Proof.
  intros rows. split; [|split; [|split; [|split; [|split; [|split]]]]].
  - apply (load_game_tree_invariant (fun t => move t = GAME_START_MOVE));
      [reflexivity|]. intros t row H. rewrite insert_move. exact H.
  - apply (load_game_tree_invariant (fun t => is_white_move t = true));
      [reflexivity|]. intros t row H. rewrite insert_is_white_move. exact H.
  - apply (load_game_tree_invariant (estimates_equal 0%Q)).
    + constructor; simpl; [reflexivity | constructor].
    + intros t row H. apply insert_estimates_zero. exact H.
  - apply (load_game_tree_invariant distinct_moves).
    + constructor; simpl; constructor.
    + intros t row H. apply insert_distinct_moves. exact H.
  - apply (load_game_tree_invariant sides_alternate).
    + apply sides_alternate_leaf.
    + intros t row H. apply insert_sides_alternate. exact H.
  - apply (load_game_tree_invariant all_recomputed).
    + apply all_recomputed_leaf.
    + intros t row H. apply insert_all_recomputed. exact H.
  - intros row pre post Hin ->. rewrite load_game_tree_insert_all.
    destruct (insert_all_finds (map (fun row => (row, 0%Q)) rows)
                GameTree_default (pre ++ post) 0%Q) as [n Hn].
    + apply in_map_iff. exists (pre ++ post). auto.
    + eapply node_at_prefix. exact Hn.
Qed.

Lemma load_game_tree_properties_witness :
  exists n,
    node_at (load_game_tree [["a2b3"; "d2c3"]; ["a2b3"; "b1d3"; "c2b3"]]%string)
            ["a2b3"; "b1d3"]%string = Some n.
Proof.
  destruct (load_game_tree_properties
              [["a2b3"; "d2c3"]; ["a2b3"; "b1d3"; "c2b3"]]%string)
    as [_ [_ [_ [_ [_ [_ H]]]]]].
  apply (H ["a2b3"; "b1d3"; "c2b3"]%string ["a2b3"; "b1d3"]%string
           ["c2b3"]%string).
  - simpl. right. left. reflexivity.
  - reflexivity.
Defined.

(** ** The greedy player on Black's turn *)

Lemma scan_lowest_no_better (l : list GameTree) :
  forall prob1 lp,
    Forall (fun s => (prob1 <= white_win_probability s)%Q) l ->
    scan_lowest l prob1 lp = (prob1, lp).
Proof.
  induction l as [|x r IH]; intros prob1 lp Hall; simpl; [reflexivity|].
  inversion Hall as [|x' r' Hx Hr]; subst.
  apply Qlt_bool_false in Hx. rewrite Hx. apply IH. exact Hr.
Qed.

Lemma scan_lowest_spec (l : list GameTree) :
  forall prob1 lp,
    (Forall (fun s => (prob1 <= white_win_probability s)%Q) l /\
     scan_lowest l prob1 lp = (prob1, lp)) \/
    (exists c,
        scan_lowest l prob1 lp = (white_win_probability c, Some c) /\
        (white_win_probability c < prob1)%Q /\ first_minimum c l).
Proof.
  induction l as [|x r IH]; intros prob1 lp; simpl.
  - left. split; [constructor | reflexivity].
  - destruct (Qlt_bool (white_win_probability x) prob1) eqn:E.
    + apply Qlt_bool_iff in E. right.
      destruct (IH (white_win_probability x) (Some x))
        as [[Hall Heq] | [c [Heq [Hlt [before [after [-> [Hb Ha]]]]]]]].
      * exists x. split; [exact Heq|]. split; [exact E|].
        exists [], r. split; [reflexivity|].
        split; [intros s []|]. rewrite Forall_forall in Hall. exact Hall.
      * exists c. split; [exact Heq|].
        split; [eapply Qlt_trans; eassumption|].
        exists (x :: before), after. split; [reflexivity|].
        split; [|exact Ha]. intros s [<-|Hs]; [exact Hlt | auto].
    + apply Qlt_bool_false in E.
      destruct (IH prob1 lp)
        as [[Hall Heq] | [c [Heq [Hlt [before [after [-> [Hb Ha]]]]]]]].
      * left. split; [constructor; assumption | exact Heq].
      * right. exists c. split; [exact Heq|]. split; [exact Hlt|].
        exists (x :: before), after. split; [reflexivity|].
        split; [|exact Ha]. intros s [<-|Hs]; [|auto].
        eapply Qlt_le_trans; eassumption.
Qed.

(** X10: when [GreedyTreePlayer.make_move] stands on a node with
    subtrees and Black is to move, then if some subtree has an estimate
    below 1 it returns the move of the first subtree with the least
    estimate and moves on to it, without drawing; and if no subtree has
    an estimate below 1, it moves on to the subtree that [random.choice]
    draws. *)
Theorem greedy_black_choice :
  forall (G : Type) (rules : minichess.MinichessGame G)
         (held : option GameTree) (game : G) (previous_move : option string)
         (r : Rng) (t : GameTree),
    descend held previous_move = Some t ->
    _subtrees t <> [] ->
    minichess.is_white_move game = false ->
    (Exists (fun s => (white_win_probability s < 1)%Q) (_subtrees t) ->
     exists c,
       first_minimum c (_subtrees t) /\
       GreedyTreePlayer_make_move held game previous_move r =
         (Some (move c), Some c, r)) /\
    (Forall (fun s => (1 <= white_win_probability s)%Q) (_subtrees t) ->
     exists c,
       nth_error (_subtrees t)
         (N.to_nat (next_draw r mod N.of_nat (length (_subtrees t))))
         = Some c /\
       GreedyTreePlayer_make_move held game previous_move r =
         (Some (move c), Some c, advance r)).
Proof.
  intros G rules held game previous_move r t Hd Hne Hb.
  rewrite (greedy_on_tree held game previous_move r t Hd Hne).
  unfold greedy_choice, get_subtrees. rewrite Hb. split.
  - intros Hex.
    destruct (scan_lowest_spec (_subtrees t) 1%Q None)
      as [[Hall _] | [c [Heq [_ Hc]]]].
    + exfalso. apply Exists_exists in Hex. destruct Hex as [s [Hin Hs]].
      rewrite Forall_forall in Hall. specialize (Hall s Hin).
      apply (Qlt_irrefl 1). eapply Qle_lt_trans; eassumption.
    + exists c. rewrite Heq. auto.
  - intros Hall. rewrite scan_lowest_no_better by exact Hall. simpl.
    destruct (random_subtree_spec t r Hne) as [c [Hn [_ Hc]]].
    exists c. auto.
Qed.

Lemma greedy_black_choice_witness :
  exists c,
    first_minimum c (_subtrees one_good_move) /\
    GreedyTreePlayer_make_move (Some one_good_move) (countdown 1) None
                               counting_rng =
      (Some (move c), Some c, counting_rng).
Proof.
  assert (Hne : _subtrees one_good_move <> []) by (vm_compute; discriminate).
  destruct (greedy_black_choice Countdown Countdown_game
              (Some one_good_move) (countdown 1) None counting_rng
              one_good_move eq_refl Hne eq_refl) as [H _].
  apply H. vm_compute. left. reflexivity.
Defined.

(** ** The greedy player on a tree without information *)

(** X11: on a node whose subtrees all have the estimate 0, as every node
    of a tree built by [load_game_tree] has, [GreedyTreePlayer] plays as
    [RandomTreePlayer] does when White is to move, and always moves on
    to the first subtree when Black is to move. *)
Theorem greedy_on_zero_estimates :
  forall (G : Type) (rules : minichess.MinichessGame G)
         (held : option GameTree) (game : G) (previous_move : option string)
         (r : Rng) (t : GameTree),
    descend held previous_move = Some t ->
    _subtrees t <> [] ->
    Forall (fun c => (white_win_probability c == 0)%Q) (_subtrees t) ->
    (minichess.is_white_move game = true ->
     GreedyTreePlayer_make_move held game previous_move r =
     RandomTreePlayer_make_move held game previous_move r) /\
    (minichess.is_white_move game = false ->
     exists c after,
       _subtrees t = c :: after /\
       GreedyTreePlayer_make_move held game previous_move r =
         (Some (move c), Some c, r)).
Proof.
  intros G rules held game previous_move r t Hd Hne Hzero.
  rewrite (greedy_on_tree held game previous_move r t Hd Hne).
  rewrite (random_on_tree held game previous_move r t Hd Hne).
  split; intros Hw.
  - apply greedy_white_none; [exact Hw|].
    eapply Forall_impl; [|exact Hzero]. intros c Hc. simpl in Hc.
    rewrite Hc. apply Qle_refl.
  - unfold greedy_choice, get_subtrees. rewrite Hw.
    destruct (_subtrees t) as [|c after]; [contradiction|].
    exists c, after. split; [reflexivity|].
    inversion Hzero as [|c' r' Hc Hafter]; subst. simpl.
    assert (Hlt : Qlt_bool (white_win_probability c) 1 = true)
      by (apply Qlt_bool_iff; rewrite Hc; reflexivity).
    rewrite Hlt. rewrite scan_lowest_no_better; [reflexivity|].
    eapply Forall_impl; [|exact Hafter]. intros s Hs. simpl in Hs.
    rewrite Hc, Hs. apply Qle_refl.
Qed.

Lemma greedy_on_zero_estimates_witness :
  GreedyTreePlayer_make_move
    (Some (load_game_tree [["a2b3"; "d2c3"]; ["b2c3"]]%string))
    (countdown 2) None counting_rng =
  RandomTreePlayer_make_move
    (Some (load_game_tree [["a2b3"; "d2c3"]; ["b2c3"]]%string))
    (countdown 2) None counting_rng.
Proof.
  assert (Hne : _subtrees (load_game_tree [["a2b3"; "d2c3"]; ["b2c3"]]%string)
                <> []) by (vm_compute; discriminate).
  destruct (greedy_on_zero_estimates Countdown Countdown_game
              (Some (load_game_tree [["a2b3"; "d2c3"]; ["b2c3"]]%string))
              (countdown 2) None counting_rng
              (load_game_tree [["a2b3"; "d2c3"]; ["b2c3"]]%string)
              eq_refl Hne) as [H _].
  - vm_compute. repeat constructor.
  - apply H. reflexivity.
Defined.

(** ** More on [generate_complete_game_tree] *)

Lemma last_of_nonempty {A : Type} (l : list A) (a d d' : A) :
  last (a :: l) d = last (a :: l) d'.
Proof.
  revert a. induction l as [|b l IH]; intros a; [reflexivity|].
  change (last (b :: l) d = last (b :: l) d'). apply IH.
Qed.

Section complete_tree_contents.
Context {G : Type} `{minichess.MinichessGame G}.

Lemma generate_is_white_move (root_move : string) (g : G) (d : nat) :
  is_white_move (generate_complete_game_tree root_move g d) =
  minichess.is_white_move g.
Proof.
  assert (Hfold : forall (f : string -> GameTree) l t0,
             is_white_move
               (fold_left (fun tree mv => add_subtree tree (f mv)) l t0) =
             is_white_move t0).
  { intros f l. induction l as [|x r IH]; intros t0; simpl; [reflexivity|].
    rewrite IH. unfold add_subtree. rewrite update_is_white_move.
    reflexivity. }
  destruct d; simpl; destruct (winner_is_white g); try reflexivity;
    rewrite Hfold; reflexivity.
Qed.

Lemma generate_moves (root_move : string) (g : G) (d : nat) :
  map move (_subtrees (generate_complete_game_tree root_move g (S d))) =
  minichess.get_valid_moves g.
Proof.
  rewrite generate_subtrees, map_map.
  rewrite <- (map_id (minichess.get_valid_moves g)) at 2.
  apply map_ext. intros mv. apply generate_move.
Qed.

Lemma add_all_invariant (P : GameTree -> Prop) (f : string -> GameTree)
  (l : list string) :
  (forall t s, P t -> P s -> P (add_subtree t s)) ->
  (forall mv, In mv l -> P (f mv)) ->
  forall t0, P t0 ->
    P (fold_left (fun tree mv => add_subtree tree (f mv)) l t0).
Proof.
  intros Hadd. induction l as [|x r IH]; intros Hf t0 H0; simpl;
    [exact H0|].
  apply IH.
  - intros mv Hin. apply Hf. right. exact Hin.
  - apply Hadd; [exact H0 | apply Hf; left; reflexivity].
Qed.

Lemma generate_invariant (P : GameTree -> Prop) :
  (forall mv white, P (GameTree_init mv white 1%Q)) ->
  (forall mv white, P (GameTree_init mv white 0%Q)) ->
  (forall t s, P t -> P s -> P (add_subtree t s)) ->
  forall (d : nat) (root_move : string) (g : G),
    P (generate_complete_game_tree root_move g d).
Proof.
  intros H1 H0 Hadd. induction d as [|d IH]; intros root_move g.
  - simpl. destruct (winner_is_white g); [apply H1 | apply H0].
  - simpl. destruct (winner_is_white g);
      (apply (add_all_invariant P); [exact Hadd | intros; apply IH |]);
      [apply H1 | apply H0].
Qed.

Lemma generate_node_at (path : list string) :
  forall (root_move : string) (g : G) (d : nat),
    valid_path g path -> length path <= d ->
    node_at (generate_complete_game_tree root_move g d) path =
    Some (generate_complete_game_tree
            (last path root_move)
            (fold_left minichess.copy_and_make_move path g)
            (d - length path)).
Proof.
  induction path as [|mv rest IH]; intros root_move g d Hv Hd.
  - simpl. rewrite Nat.sub_0_r. reflexivity.
  - destruct d as [|d]; [simpl in Hd; lia|].
    destruct Hv as [Hin Hv]. cbn [node_at].
    rewrite find_subtree_by_move_unfold, generate_subtrees.
    assert (Hfind :
      find (has_move mv)
        (map (fun mv0 =>
                generate_complete_game_tree mv0
                  (minichess.copy_and_make_move g mv0) d)
             (minichess.get_valid_moves g)) =
      Some (generate_complete_game_tree mv
              (minichess.copy_and_make_move g mv) d)).
    { induction (minichess.get_valid_moves g) as [|x l IHl];
        [destruct Hin|]. simpl. unfold has_move at 1.
      rewrite generate_move.
      destruct (String.eqb_spec x mv) as [->|Hne]; [reflexivity|].
      apply IHl. destruct Hin as [E|Hin]; [contradiction | exact Hin]. }
    rewrite Hfind. simpl in Hd.
    rewrite (IH mv (minichess.copy_and_make_move g mv) d Hv)
      by lia.
    simpl fold_left. simpl length. simpl Nat.sub.
    f_equal. f_equal. destruct rest as [|m2 rest]; [reflexivity|].
    change (last (mv :: m2 :: rest) root_move)
      with (last (m2 :: rest) root_move).
    apply last_of_nonempty.
Qed.

End complete_tree_contents.

(** X12: the root of a complete game tree carries the given move and the
    side to move of the state, and, when the depth is not 0, its
    subtrees carry the valid moves of the state, in the order in which
    [get_valid_moves] returns them. *)
Theorem complete_game_tree_root :
  forall (G : Type) (rules : minichess.MinichessGame G)
         (root_move : string) (game_state : G) (d : nat),
    move (generate_complete_game_tree root_move game_state d) = root_move /\
    is_white_move (generate_complete_game_tree root_move game_state d) =
      minichess.is_white_move game_state /\
    map move (_subtrees
                (generate_complete_game_tree root_move game_state (S d))) =
      minichess.get_valid_moves game_state.
Proof.
  intros G rules root_move game_state d. split; [|split].
  - apply generate_move.
  - apply generate_is_white_move.
  - apply generate_moves.
Qed.

(** X13: in a complete game tree every estimate lies in the unit
    interval and every node with subtrees carries the estimate computed
    from them (the maximum for White; for Black the mean as float
    arithmetic gives it, [rounded_mean]). *)
Theorem complete_game_tree_estimates :
  forall (G : Type) (rules : minichess.MinichessGame G)
         (root_move : string) (game_state : G) (d : nat),
    probabilities_ok (generate_complete_game_tree root_move game_state d) /\
    all_recomputed (generate_complete_game_tree root_move game_state d).
Proof.
  intros G rules root_move game_state d. split.
  - apply (generate_invariant probabilities_ok).
    + intros. apply init_probabilities_ok. split; unit_interval.
    + intros. apply init_probabilities_ok. split; unit_interval.
    + apply add_subtree_probabilities_ok.
  - apply (generate_invariant all_recomputed).
    + intros. apply all_recomputed_leaf.
    + intros. apply all_recomputed_leaf.
    + apply add_subtree_all_recomputed.
Qed.

(** X14: a complete game tree of depth [d] contains every sequence of at
    most [d] moves that can be played from the state: looking the moves
    up one after the other ends on the complete game tree of the state
    reached, of the depth that is left. *)
Theorem complete_game_tree_contains_valid_paths :
  forall (G : Type) (rules : minichess.MinichessGame G)
         (root_move : string) (game_state : G) (d : nat)
         (path : list string),
    valid_path game_state path ->
    length path <= d ->
    node_at (generate_complete_game_tree root_move game_state d) path =
    Some (generate_complete_game_tree
            (last path root_move)
            (fold_left minichess.copy_and_make_move path game_state)
            (d - length path)).
Proof.
  intros G rules root_move game_state d path Hv Hd.
  apply generate_node_at; assumption.
Qed.

Lemma complete_game_tree_contains_valid_paths_witness :
  node_at (generate_complete_game_tree "*" (countdown 2) 3)
          ["b1b2"; "a1a2"]%string =
  Some (generate_complete_game_tree "a1a2" (countdown 0) 1).
Proof.
  apply (complete_game_tree_contains_valid_paths Countdown Countdown_game
           "*"%string (countdown 2) 3 ["b1b2"; "a1a2"]%string).
  - simpl. tauto.
  - simpl. lia.
Defined.

(** X15: when the rules engine never lists a move twice, the subtrees of
    every node of a complete game tree carry pairwise distinct moves. *)
Theorem complete_game_tree_distinct_moves :
  forall (G : Type) (rules : minichess.MinichessGame G),
    (forall g : G, NoDup (minichess.get_valid_moves g)) ->
    forall (d : nat) (root_move : string) (game_state : G),
      distinct_moves (generate_complete_game_tree root_move game_state d).
Proof.
  intros G rules Hnd. induction d as [|d IH]; intros root_move game_state.
  - rewrite generate_depth_0. constructor; simpl; constructor.
  - constructor.
    + rewrite generate_moves. apply Hnd.
    + rewrite generate_subtrees. apply Forall_map, Forall_forall.
      intros mv _. apply IH.
Qed.

Lemma complete_game_tree_distinct_moves_witness :
  distinct_moves (generate_complete_game_tree "*" (countdown 2) 3).
Proof.
  apply (complete_game_tree_distinct_moves Countdown Countdown_game).
  intros [[|n]]; simpl; repeat constructor; simpl; intuition discriminate.
Defined.

(** ** The exploring step *)

Section exploring_step.
Context {G : Type} `{minichess.MinichessGame G}.

Lemma move_in_subtrees_find (mv : string) (t : GameTree) :
  move_in_subtrees mv (get_subtrees t) = true ->
  exists c, find_subtree_by_move t mv = Some c /\ move c = mv.
Proof.
  unfold move_in_subtrees, get_subtrees. intros Hex.
  apply existsb_exists in Hex. destruct Hex as [x [Hin Hx]].
  apply String.eqb_eq in Hx. subst x.
  destruct (find_subtree_by_move t mv) as [c|] eqn:E.
  - exists c. split; [reflexivity|].
    rewrite find_subtree_by_move_unfold in E. apply find_has_move in E.
    tauto.
  - rewrite find_subtree_by_move_unfold in E.
    apply find_none_not_in in E. contradiction.
Qed.

Lemma move_not_in_subtrees_find (mv : string) (t : GameTree) :
  move_in_subtrees mv (get_subtrees t) = false ->
  find_subtree_by_move t mv = None.
Proof.
  unfold move_in_subtrees, get_subtrees. intros Hex.
  destruct (find_subtree_by_move t mv) as [c|] eqn:E; [|reflexivity].
  rewrite find_subtree_by_move_unfold in E. apply find_has_move in E.
  destruct E as [Hc Hin].
  assert (Ht : existsb (fun x => String.eqb x mv) (map move (_subtrees t))
               = true).
  { apply existsb_exists. exists (move c). split.
    - apply in_map. exact Hin.
    - apply String.eqb_eq. exact Hc. }
  rewrite Ht in Hex. discriminate.
Qed.

Lemma helper_function_spec (t : GameTree) (game : G) (r : Rng) :
  minichess.get_valid_moves game <> [] ->
  exists mv,
    nth_error (minichess.get_valid_moves game)
      (N.to_nat (next_draw r
                 mod N.of_nat (length (minichess.get_valid_moves game))))
      = Some mv /\
    In mv (minichess.get_valid_moves game) /\
    helper_function t game r =
      (Some mv, find_subtree_by_move t mv, advance r).
Proof.
  intros Hne.
  destruct (random_choice_nonempty (minichess.get_valid_moves game) r Hne)
    as [mv [Hn [Hin Hc]]].
  exists mv. split; [exact Hn|]. split; [exact Hin|].
  unfold helper_function. rewrite Hc.
  destruct (move_in_subtrees mv (get_subtrees t)) eqn:E; simpl.
  - destruct (move_in_subtrees_find mv t E) as [c [Hf Hm]].
    rewrite Hf, Hm. reflexivity.
  - rewrite (move_not_in_subtrees_find mv t E). reflexivity.
Qed.

Lemma uniform_below_1 (r : Rng) (p : Q) :
  (1 <= p)%Q -> Qlt_bool (fst (random_uniform01 r)) p = true.
Proof.
  intros Hp. apply Qlt_bool_iff. eapply Qlt_le_trans; [|exact Hp].
  unfold random_uniform01. cbn [fst]. unfold Qlt. cbn [Qnum Qden].
  rewrite Z.mul_1_r, Z.mul_1_l.
  assert (Hlt : (next_draw r mod 2 ^ 53 < 2 ^ 53)%N)
    by (apply N.mod_lt; discriminate).
  change (Z.pos (2 ^ 53)) with (Z.of_N (2 ^ 53)). lia.
Qed.

End exploring_step.

(** X16: the exploring step of [ExploringPlayer] ([helper_function])
    returns the valid move that [random.choice] draws, and moves on to
    the subtree under that move if there is one and to [None] otherwise:
    unlike a move taken from the tree, the move returned is always a
    valid move of the game. *)
Theorem exploring_step_plays_a_valid_move :
  forall (G : Type) (rules : minichess.MinichessGame G)
         (t : GameTree) (game : G) (r : Rng),
    minichess.get_valid_moves game <> [] ->
    exists mv,
      nth_error (minichess.get_valid_moves game)
        (N.to_nat (next_draw r
                   mod N.of_nat (length (minichess.get_valid_moves game))))
        = Some mv /\
      In mv (minichess.get_valid_moves game) /\
      helper_function t game r =
        (Some mv, find_subtree_by_move t mv, advance r).
Proof. intros G rules t game r Hne. apply helper_function_spec. exact Hne. Qed.

Lemma exploring_step_plays_a_valid_move_witness :
  exists mv,
    nth_error (minichess.get_valid_moves (countdown 2))
      (N.to_nat (next_draw (advance counting_rng)
                 mod N.of_nat
                       (length (minichess.get_valid_moves (countdown 2)))))
      = Some mv /\
    In mv (minichess.get_valid_moves (countdown 2)) /\
    helper_function build_sample_game_tree (countdown 2)
                    (advance counting_rng) =
      (Some mv, find_subtree_by_move build_sample_game_tree mv,
       advance (advance counting_rng)).
Proof.
  apply (exploring_step_plays_a_valid_move Countdown Countdown_game).
  simpl. discriminate.
Defined.

(** X17: with an exploration probability of 1 or more,
    [ExploringPlayer.make_move] on a node with subtrees always takes the
    exploring step, after its one draw: the estimates in the tree play
    no part in the move. *)
Theorem exploring_1_always_explores :
  forall (G : Type) (rules : minichess.MinichessGame G) (p : Q)
         (held : option GameTree) (game : G) (previous_move : option string)
         (r : Rng) (t : GameTree),
    (1 <= p)%Q ->
    descend held previous_move = Some t ->
    _subtrees t <> [] ->
    ExploringPlayer_make_move p held game previous_move r =
    helper_function t game (advance r).
Proof.
  intros G rules p held game previous_move r t Hp Hd Hne.
  unfold ExploringPlayer_make_move.
  rewrite (on_tree _ t Hd Hne), Hd.
  pose proof (uniform_below_1 r p Hp) as Hu.
  destruct (random_uniform01 r) as [number r'] eqn:Eu.
  assert (Er : r' = advance r)
    by (unfold random_uniform01 in Eu; injection Eu as _ <-; reflexivity).
  cbn [fst] in Hu. rewrite Hu, Er. reflexivity.
Qed.

Lemma exploring_1_always_explores_witness :
  ExploringPlayer_make_move 1%Q (Some one_good_move) (countdown 2) None
                            counting_rng =
  helper_function one_good_move (countdown 2) (advance counting_rng).
Proof.
  apply (exploring_1_always_explores Countdown Countdown_game 1%Q
           (Some one_good_move) (countdown 2) None counting_rng
           one_good_move).
  - unit_interval.
  - reflexivity.
  - vm_compute. discriminate.
Defined.

(** ** The players never leave the tree they were given *)

Lemma node_of_subtree_below (t n c : GameTree) :
  node_of t n -> In c (_subtrees n) -> node_of t c.
Proof.
  intros H Hin. induction H as [t | t c' n Hc' _ IH].
  - eapply node_of_subtree; [exact Hin | apply node_of_root].
  - eapply node_of_subtree; [exact Hc' | apply IH, Hin].
Qed.

Lemma find_within (t n : GameTree) (mv : string) :
  node_of t n -> held_within t (find_subtree_by_move n mv).
Proof.
  intros H. destruct (find_subtree_by_move n mv) as [c|] eqn:E; [|exact I].
  rewrite find_subtree_by_move_unfold in E. apply find_has_move in E.
  simpl. eapply node_of_subtree_below; [exact H | tauto].
Qed.

Lemma descend_within (t : GameTree) (held : option GameTree)
  (previous_move : option string) :
  held_within t held -> held_within t (descend held previous_move).
Proof.
  intros H. destruct previous_move as [pm|], held as [n|]; simpl; auto.
  apply find_within. exact H.
Qed.

Lemma random_subtree_within (t n : GameTree) (r : Rng) :
  node_of t n -> held_within t (snd (fst (random_subtree n r))).
Proof.
  intros H. unfold random_subtree, get_subtrees.
  destruct (_subtrees n) as [|a l] eqn:E; [exact H|].
  destruct (random_choice_nonempty (a :: l) r) as [c [_ [Hin Hc]]];
    [discriminate|].
  rewrite Hc. simpl. eapply node_of_subtree_below; [exact H|].
  rewrite E. exact Hin.
Qed.

Section within.
Context {G : Type} `{minichess.MinichessGame G}.

Lemma random_valid_move_within (t : GameTree) (game : G)
  (held : option GameTree) (r : Rng) :
  held_within t held ->
  held_within t (snd (fst (random_valid_move game held r))).
Proof.
  intros Hh. unfold random_valid_move.
  destruct (random_choice (minichess.get_valid_moves game) r) as [[mv|] r'];
    simpl; auto.
Qed.

Lemma greedy_choice_within (t n : GameTree) (game : G) (r : Rng) :
  node_of t n -> held_within t (snd (fst (greedy_choice n game r))).
Proof.
  intros Hn. unfold greedy_choice, get_subtrees.
  destruct (minichess.is_white_move game).
  - destruct (snd (scan_highest (_subtrees n) 0 None)) as [c|] eqn:E.
    + apply scan_highest_in in E. destruct E as [E|E]; [discriminate|].
      simpl. eapply node_of_subtree_below; eassumption.
    + apply random_subtree_within. exact Hn.
  - destruct (snd (scan_lowest (_subtrees n) 1 None)) as [c|] eqn:E.
    + apply scan_lowest_in in E. destruct E as [E|E]; [discriminate|].
      simpl. eapply node_of_subtree_below; eassumption.
    + apply random_subtree_within. exact Hn.
Qed.

Lemma helper_function_within (t n : GameTree) (game : G) (r : Rng) :
  node_of t n -> held_within t (snd (fst (helper_function n game r))).
Proof.
  intros Hn. unfold helper_function.
  destruct (random_choice (minichess.get_valid_moves game) r) as [[mv|] r'];
    [|exact Hn].
  destruct (negb (move_in_subtrees mv (get_subtrees n))); [exact I|].
  pose proof (find_within t n mv Hn) as Hf.
  destruct (find_subtree_by_move n mv); [exact Hf | exact I].
Qed.

Lemma random_player_within (t : GameTree) (held : option GameTree)
  (game : G) (previous_move : option string) (r : Rng) :
  held_within t held ->
  held_within t
    (snd (fst (RandomTreePlayer_make_move held game previous_move r))).
Proof.
  intros Hh. unfold RandomTreePlayer_make_move.
  pose proof (descend_within t held previous_move Hh) as Hd.
  destruct (off_tree (descend held previous_move));
    [apply random_valid_move_within; exact Hd|].
  destruct (descend held previous_move);
    [apply random_subtree_within | apply random_valid_move_within];
    exact Hd.
Qed.

Lemma greedy_player_within (t : GameTree) (held : option GameTree)
  (game : G) (previous_move : option string) (r : Rng) :
  held_within t held ->
  held_within t
    (snd (fst (GreedyTreePlayer_make_move held game previous_move r))).
Proof.
  intros Hh. unfold GreedyTreePlayer_make_move.
  pose proof (descend_within t held previous_move Hh) as Hd.
  destruct (off_tree (descend held previous_move));
    [apply random_valid_move_within; exact Hd|].
  destruct (descend held previous_move);
    [apply greedy_choice_within | apply random_valid_move_within];
    exact Hd.
Qed.

Lemma exploring_player_within (p : Q) (t : GameTree)
  (held : option GameTree) (game : G) (previous_move : option string)
  (r : Rng) :
  held_within t held ->
  held_within t
    (snd (fst (ExploringPlayer_make_move p held game previous_move r))).
Proof.
  intros Hh. unfold ExploringPlayer_make_move.
  pose proof (descend_within t held previous_move Hh) as Hd.
  destruct (off_tree (descend held previous_move));
    [apply random_valid_move_within; exact Hd|].
  destruct (descend held previous_move);
    [|apply random_valid_move_within; exact Hd].
  destruct (random_uniform01 r) as [number r'].
  destruct (Qlt_bool number p);
    [apply helper_function_within | apply greedy_choice_within]; exact Hd.
Qed.

Lemma held_after_within
  (make_move : option GameTree -> G -> option string -> Rng -> MoveResult)
  (t : GameTree) :
  (forall held game previous_move r,
      held_within t held ->
      held_within t (snd (fst (make_move held game previous_move r)))) ->
  forall calls held r,
    held_within t held -> held_within t (held_after make_move held r calls).
Proof.
  intros Hstep calls.
  induction calls as [|[game pm] later IH]; intros held r Hh; [exact Hh|].
  simpl. specialize (Hstep held game pm r Hh).
  destruct (make_move held game pm r) as [[mv held'] r'].
  apply IH. exact Hstep.
Qed.

End within.

(** X18: a player whose [_game_tree] is [None] or a node of a tree [t]
    still has [None] or a node of [t] as its [_game_tree] after any
    series of calls of [make_move], for each of the three players: the
    players only ever walk down the tree they were given. *)
Theorem players_stay_within_the_tree :
  forall (G : Type) (rules : minichess.MinichessGame G) (p : Q)
         (t : GameTree) (held : option GameTree)
         (calls : list (G * option string)) (r : Rng),
    held_within t held ->
    held_within t (held_after RandomTreePlayer_make_move held r calls) /\
    held_within t (held_after GreedyTreePlayer_make_move held r calls) /\
    held_within t (held_after (ExploringPlayer_make_move p) held r calls).
Proof.
  intros G rules p t held calls r Hh. repeat split.
  - apply held_after_within; [|exact Hh]. intros.
    apply random_player_within. assumption.
  - apply held_after_within; [|exact Hh]. intros.
    apply greedy_player_within. assumption.
  - apply held_after_within; [|exact Hh]. intros.
    apply exploring_player_within. assumption.
Qed.

Lemma players_stay_within_the_tree_witness :
  held_within build_sample_game_tree
    (held_after RandomTreePlayer_make_move (Some build_sample_game_tree)
       counting_rng [(countdown 3, None); (countdown 1, Some "d4d3"%string)]) /\
  held_within build_sample_game_tree
    (held_after GreedyTreePlayer_make_move (Some build_sample_game_tree)
       counting_rng [(countdown 3, None); (countdown 1, Some "d4d3"%string)]) /\
  held_within build_sample_game_tree
    (held_after (ExploringPlayer_make_move (1 # 2))
       (Some build_sample_game_tree)
       counting_rng [(countdown 3, None); (countdown 1, Some "d4d3"%string)]).
Proof.
  apply (players_stay_within_the_tree Countdown Countdown_game (1 # 2)
           build_sample_game_tree (Some build_sample_game_tree)).
  simpl. apply node_of_root.
Defined.

(** ** [run_learning_algorithm] *)

Lemma learning_invariant (P : GameTree -> Prop)
  (run_game : GameTree -> Q -> Rng -> (string * list string) * Rng) :
  (forall t moves, P t -> P (insert_move_sequence t moves 1%Q)) ->
  (forall t moves, P t -> P (insert_move_sequence t moves 0%Q)) ->
  forall probabilities state,
    P (fst (fst state)) ->
    P (fst (fst (fold_left (learning_game run_game) probabilities state))).
Proof.
  intros H1 H0 probabilities.
  induction probabilities as [|p ps IH]; intros state Hs; [exact Hs|].
  simpl. apply IH. destruct state as [[t results] r]. simpl in Hs.
  unfold learning_game. destruct (run_game t p r) as [[winner moves] r'].
  simpl. destruct (String.eqb winner "White"); simpl;
    [apply H1 | apply H0]; exact Hs.
Qed.

Lemma learning_results (run_game : GameTree -> Q -> Rng ->
                                   (string * list string) * Rng) :
  forall probabilities state,
    length (snd (fst (fold_left (learning_game run_game) probabilities
                                state))) =
    length (snd (fst state)) + length probabilities.
Proof.
  induction probabilities as [|p ps IH]; intros state; simpl; [lia|].
  rewrite IH. destruct state as [[t results] r]. unfold learning_game.
  destruct (run_game t p r) as [[winner moves] r']. simpl.
  destruct (String.eqb winner "White"); simpl; rewrite length_app; simpl;
    lia.
Qed.

(** X19: whatever games are played, the tree that
    [run_learning_algorithm] returns has the start move at its root
    with White to move; its estimates lie in the unit interval and agree
    with the subtrees at every node (the maximum for White; for Black
    the mean as float arithmetic gives it, [rounded_mean]); sibling
    moves are pairwise distinct and the side to move alternates; and one
    winner is recorded for every exploration probability. *)
Theorem run_learning_algorithm_properties :
  forall (run_game : GameTree -> Q -> Rng -> (string * list string) * Rng)
         (exploration_probabilities : list Q) (r : Rng),
    let '(game_tre, results_so_far, _) :=
      run_learning_algorithm run_game exploration_probabilities r in
    move game_tre = GAME_START_MOVE /\
    is_white_move game_tre = true /\
    probabilities_ok game_tre /\
    all_recomputed game_tre /\
    distinct_moves game_tre /\
    sides_alternate game_tre /\
    length results_so_far = length exploration_probabilities.
Proof.
  intros run_game probabilities r.
  pose proof (fun P H1 H0 H =>
                learning_invariant P run_game H1 H0 probabilities
                  (GameTree_default, [], r) H) as Hinv.
  pose proof (learning_results run_game probabilities
                (GameTree_default, [], r)) as Hlen.
  fold (run_learning_algorithm run_game probabilities r) in Hinv, Hlen.
  destruct (run_learning_algorithm run_game probabilities r)
    as [[game_tre results] r'].
  simpl in Hinv, Hlen.
  split; [|split; [|split; [|split; [|split; [|split]]]]].
  - apply (Hinv (fun t => move t = GAME_START_MOVE)); [| |reflexivity];
      intros t moves Ht; rewrite insert_move; exact Ht.
  - apply (Hinv (fun t => is_white_move t = true)); [| |reflexivity];
      intros t moves Ht; rewrite insert_is_white_move; exact Ht.
  - apply (Hinv probabilities_ok).
    + intros t moves Ht. apply insert_probabilities_ok; [|exact Ht].
      split; unit_interval.
    + intros t moves Ht. apply insert_probabilities_ok; [|exact Ht].
      split; unit_interval.
    + apply init_probabilities_ok. split; unit_interval.
  - apply (Hinv all_recomputed).
    + intros t moves Ht. apply insert_all_recomputed. exact Ht.
    + intros t moves Ht. apply insert_all_recomputed. exact Ht.
    + apply all_recomputed_leaf.
  - apply (Hinv distinct_moves).
    + intros t moves Ht. apply insert_distinct_moves. exact Ht.
    + intros t moves Ht. apply insert_distinct_moves. exact Ht.
    + constructor; simpl; constructor.
  - apply (Hinv sides_alternate).
    + intros t moves Ht. apply insert_sides_alternate. exact Ht.
    + intros t moves Ht. apply insert_sides_alternate. exact Ht.
    + apply sides_alternate_leaf.
  - exact Hlen.
Qed.

(** ** The text of a tree *)

Lemma count_newlines_app (a b : string) :
  count_newlines (a ++ b) = count_newlines a + count_newlines b.
Proof.
  induction a as [|c a IH]; simpl; [reflexivity|]. rewrite IH. lia.
Qed.

Lemma count_newlines_indentation (depth : nat) :
  count_newlines (indentation depth) = 0.
Proof. induction depth as [|d IH]; simpl; [reflexivity | exact IH]. Qed.

Lemma str_indented_newlines (t : GameTree) :
  forall depth,
    (forall n, node_of t n -> count_newlines (move n) = 0) ->
    count_newlines (_str_indented t depth) = size t.
Proof.
  induction t as [mv white p subs IH] using GameTree_ind.
  intros depth Hmoves.
  assert (Hmv : count_newlines mv = 0)
    by (apply (Hmoves (mkGameTree mv white p subs)), node_of_root).
  assert (Hsubs : forall c, In c subs ->
                  forall n, node_of c n -> count_newlines (move n) = 0).
  { intros c Hc n Hn. apply Hmoves.
    eapply node_of_subtree; [exact Hc | exact Hn]. }
  rewrite size_unfold. cbn [_str_indented _subtrees].
  match goal with
  | |- count_newlines (?each subs ?s0) = _ =>
      assert (Hs0 : count_newlines s0 = 1);
      [| assert (Heach : forall s,
                   count_newlines (each subs s) =
                   count_newlines s + total_size subs) ]
  end.
  - rewrite !count_newlines_app, count_newlines_indentation, Hmv.
    destruct white; reflexivity.
  - clear Hmoves Hmv Hs0.
    induction IH as [|c r Hc Hr IHr]; intros s;
      [unfold total_size; simpl; lia|].
    rewrite IHr by (intros c' Hc'; apply Hsubs; right; exact Hc').
    rewrite count_newlines_app, Hc
      by (apply Hsubs; left; reflexivity).
    unfold total_size. simpl. lia.
  - rewrite Heach, Hs0. reflexivity.
Qed.

(** X20: when no move in the tree contains a line feed, the text that
    [__str__] gives has exactly one line for every node of the tree. *)
Theorem str_has_one_line_per_node :
  forall t : GameTree,
    (forall n, node_of t n -> count_newlines (move n) = 0) ->
    count_newlines (GameTree_str t) = size t.
Proof. intros t H. apply str_indented_newlines. exact H. Qed.

Lemma str_has_one_line_per_node_witness :
  count_newlines
    (GameTree_str (add_subtree GameTree_default
                     (GameTree_init "a2b3" false 0%Q))) = 2.
Proof.
  apply (str_has_one_line_per_node
           (add_subtree GameTree_default (GameTree_init "a2b3" false 0%Q))).
  intros n Hn. inversion Hn as [|t c n' Hc Hn']; subst; [reflexivity|].
  destruct Hc as [<-|[]].
  inversion Hn' as [|t c n'' Hc' _]; subst; [reflexivity | destruct Hc'].
Defined.

(** ** A path under a new first move *)

Lemma insert_leaf_size (rest : list string) (mv : string) (white : bool)
  (q : Q) :
  size (insert_move_sequence (GameTree_init mv white q) rest q) =
  S (length rest).
Proof.
  rewrite insertion_node_count_general. rewrite present_prefix_leaf
    by reflexivity.
  simpl. lia.
Qed.

Lemma insert_leaf_estimates (rest : list string) (q : Q) :
  is_double q ->
  forall (mv : string) (white : bool),
    estimates_equal q
      (insert_move_sequence (GameTree_init mv white q) rest q).
Proof.
  intros Hq. induction rest as [|m r IH]; intros mv white.
  - rewrite insert_move_sequence_nil.
    constructor; simpl; [reflexivity | constructor].
  - rewrite insert_move_sequence_cons.
    change (find_subtree_by_move (GameTree_init mv white q) m) with
      (@None GameTree).
    cbn [GameTree_init _subtrees is_white_move app].
    pose proof (IH m (negb white)) as Hc.
    pose proof (estimates_equal_root q _ Hc) as Hroot.
    constructor.
    + rewrite (update_single_subtree _
                 (insert_move_sequence (GameTree_init m (negb white) q) r q));
        [exact Hroot | reflexivity |].
      unfold is_double in *.
      rewrite (fl_comp _ q Hroot), Hq. symmetry. exact Hroot.
    + rewrite update_subtrees. simpl. constructor; [exact Hc | constructor].
Qed.

(** X21: inserting a path whose first move is not yet under the node,
    with an outcome that is a floating-point number, hangs a chain of
    new nodes under that move, one node for each move of the path, every
    one with the outcome as its estimate; and the estimate of a node
    where White is to move is then at least the outcome. *)
Theorem insertion_under_a_new_move :
  forall (t : GameTree) (mv : string) (rest : list string) (q : Q),
    is_double q ->
    find_subtree_by_move t mv = None ->
    exists c,
      find_subtree_by_move (insert_move_sequence t (mv :: rest) q) mv
        = Some c /\
      estimates_equal q c /\
      size c = S (length rest) /\
      (is_white_move t = true ->
       (q <= white_win_probability
               (insert_move_sequence t (mv :: rest) q))%Q).
Proof.
  intros t mv rest q Hq Hnew.
  exists (insert_move_sequence
            (GameTree_init mv (negb (is_white_move t)) q) rest q).
  pose proof (insert_find_same t mv rest q) as Hfind.
  unfold child_for in Hfind. rewrite Hnew in Hfind.
  split; [exact Hfind|].
  split; [apply insert_leaf_estimates; exact Hq|].
  split; [apply insert_leaf_size|].
  intros Hw.
  destruct (insert_recomputed t mv rest q) as [Hrec Hne].
  unfold recomputed, agrees_with_subtrees in Hrec.
  rewrite insert_is_white_move, Hw in Hrec.
  destruct (_subtrees (insert_move_sequence t (mv :: rest) q)) as [|a l]
    eqn:E; [contradiction|].
  destruct Hrec as [_ Hmax]. rewrite Forall_forall in Hmax.
  rewrite find_subtree_by_move_unfold, E in Hfind.
  apply find_has_move in Hfind. destruct Hfind as [_ Hin].
  pose proof (estimates_equal_root q _
                (insert_leaf_estimates rest q Hq mv
                   (negb (is_white_move t))))
    as Hroot.
  eapply Qle_trans; [|apply Hmax, in_map, Hin].
  apply Qle_lteq. right. symmetry. exact Hroot.
Qed.

Lemma insertion_under_a_new_move_witness :
  exists c,
    find_subtree_by_move
      (insert_move_sequence build_sample_game_tree
         ["a1a2"; "d2c3"]%string 1%Q) "a1a2" = Some c /\
    estimates_equal 1%Q c /\
    size c = 2 /\
    (is_white_move build_sample_game_tree = true ->
     (1 <= white_win_probability
             (insert_move_sequence build_sample_game_tree
                ["a1a2"; "d2c3"]%string 1%Q))%Q).
Proof.
  apply (insertion_under_a_new_move build_sample_game_tree "a1a2"%string
           ["d2c3"%string] 1%Q).
  - vm_compute. reflexivity.
  - reflexivity.
Defined.

(** ** The greedy move and the estimate of the node *)

(** X22: on a node where White is to move, whose estimate agrees with
    its subtrees and which has a subtree with an estimate above 0, the
    greedy player on White's turn moves on to a subtree whose estimate
    is the estimate of the node. *)
Theorem greedy_white_reaches_the_estimate :
  forall (G : Type) (rules : minichess.MinichessGame G)
         (held : option GameTree) (game : G) (previous_move : option string)
         (r : Rng) (t : GameTree),
    descend held previous_move = Some t ->
    is_white_move t = true ->
    recomputed t ->
    minichess.is_white_move game = true ->
    Exists (fun s => (0 < white_win_probability s)%Q) (_subtrees t) ->
    exists c,
      GreedyTreePlayer_make_move held game previous_move r =
        (Some (move c), Some c, r) /\
      (white_win_probability c == white_win_probability t)%Q.
Proof.
  intros G rules held game previous_move r t Hd Hwt Hrec Hw Hex.
  assert (Hne : _subtrees t <> []) by (intros E; rewrite E in Hex; inversion Hex).
  rewrite (greedy_on_tree held game previous_move r t Hd Hne).
  destruct (greedy_white_best t game r Hw Hex) as [c [Hmax Hc]].
  exists c. split; [exact Hc|].
  unfold recomputed, agrees_with_subtrees in Hrec. rewrite Hwt in Hrec.
  destruct (_subtrees t) as [|a l] eqn:E; [contradiction|].
  destruct Hrec as [Hin Hle]. rewrite Forall_forall in Hle.
  destruct Hmax as [before [after [Esubs [Hb Ha]]]].
  apply Qle_antisym.
  - apply Hle. apply in_map. rewrite Esubs. apply in_elt.
  - apply in_map_iff in Hin. destruct Hin as [x [<- Hx]].
    rewrite Esubs in Hx. apply in_app_or in Hx.
    destruct Hx as [Hx|[<-|Hx]].
    + apply Qlt_le_weak, Hb, Hx.
    + apply Qle_refl.
    + apply Ha, Hx.
Qed.

Lemma greedy_white_reaches_the_estimate_witness :
  exists c,
    GreedyTreePlayer_make_move (Some one_good_move) (countdown 2) None
                               counting_rng =
      (Some (move c), Some c, counting_rng) /\
    (white_win_probability c == white_win_probability one_good_move)%Q.
Proof.
  apply (greedy_white_reaches_the_estimate Countdown Countdown_game
           (Some one_good_move) (countdown 2) None counting_rng
           one_good_move).
  - reflexivity.
  - reflexivity.
  - vm_compute. split; [right; left; reflexivity|].
    repeat constructor; discriminate.
  - reflexivity.
  - vm_compute. left. reflexivity.
Defined.
